(** * Topic content loader: extractor, request queue, backoff and TTL cache

    Shallow embedding of
    [javascripts/discourse/services/topic-content-loader.js]
    (class [TopicContentLoaderService]) and the properties of its
    image extractor, its request queue, its 429 backoff and its cache.

    Conventions.
    - JavaScript numbers that the service handles (counters, delays,
      timestamps, HTTP statuses) are integers; they are modelled in [Z].
    - Strings are [string]; a literal holds the UTF-8 bytes of the source
      literal. [String.prototype.includes] and [startsWith] are substring
      and prefix tests; on well-formed text they agree on UTF-8 bytes and on
      UTF-16 code units.
    - A DOM attribute read with [getAttribute] is an [option string]
      ([None] is JavaScript's [null]).
    - The browser's HTML parser ([innerHTML] followed by
      [querySelectorAll("img")]) and [window.location.origin] are not part
      of the repository: they are section variables. *)

From Stdlib Require Import ZArith Lia.
From stdpp Require Import base option list strings gmap fin_maps pretty.

Local Open Scope Z_scope.
Local Open Scope string_scope.

(** ** JavaScript string and truthiness helpers *)

(** [s.startsWith(p)] *)
Definition startsWith (s p : string) : bool := String.prefix p s.

(** [s.includes(needle)]: [needle] occurs at some offset of [s]. *)
Fixpoint includes (s needle : string) : bool :=
  String.prefix needle s ||
  match s with
  | EmptyString => false
  | String _ rest => includes rest needle
  end.

(** [!!s] for a string: only the empty string is falsy. *)
Definition truthy_string (s : string) : bool :=
  match s with
  | EmptyString => false
  | String _ _ => true
  end.

(** [!!v] for a value that is a string or [null]/[undefined]. *)
Definition truthy (v : option string) : bool :=
  match v with
  | Some s => truthy_string s
  | None => false
  end.

(** [a || b] on values that are strings or [null]. *)
Definition js_or (a b : option string) : option string :=
  if truthy a then a else b.

(** ** The extractor: [extractImagesFromHtml] *)

(** An [<img>] element, as far as the service reads it. *)
Record Img : Type := mkImg {
  alt : option string;
  src : option string;
  data_src : option string
}.

(** The marker searched in [alt] (source line 36). *)
Definition cover_marker : string := "封面图".

Section Extractor.

(** [window.location.origin] *)
Variable origin : string.

(** [tempDiv.innerHTML = html; tempDiv.querySelectorAll("img")] *)
Variable querySelectorAll_img : string -> list Img.

(** The text the first loop searches: [img.getAttribute("alt") || ""]. *)
Definition alt_text (img : Img) : string := default "" (alt img).

(** Lines 39-43 and 65-69: a source starting with a slash gets the
    origin in front, anything else is kept. *)
Definition resolve_url (s : string) : string :=
  if startsWith s "/" then origin +:+ s else s.

(** Lines 46-51 and 72-77: the condition under which a URL is kept. *)
Definition passes_filter (imageUrl : string) : bool :=
  negb (includes imageUrl "/images/emoji/") &&
  negb (includes imageUrl "/images/") &&
  negb (includes imageUrl "avatar") &&
  negb (includes imageUrl "user_avatar").

(** [img.getAttribute("src") || img.getAttribute("data-src")] followed by
    the [if (src)] block shared by both loops: the URL the block
    produces, if any. *)
Definition image_url (img : Img) : option string :=
  let s := js_or (src img) (data_src img) in
  match s with
  | Some s' =>
      if truthy_string s' then
        let imageUrl := resolve_url s' in
        if passes_filter imageUrl then Some imageUrl else None
      else None
  | None => None
  end.

(** Body of the first loop (lines 33-55): [Some url] is the early
    [return [url]]. *)
Definition cover_body (img : Img) : option string :=
  let a := default "" (js_or (alt img) (Some "")) in
  if includes a cover_marker then image_url img else None.

(** First loop, [for (let i = 0; i < images.length; i++)]; [n] counts the
    iterations left. *)
Fixpoint cover_loop (images : list Img) (n : nat) (i : nat) : option string :=
  match n with
  | O => None
  | S n' =>
      match images !! i with
      | Some img =>
          match cover_body img with
          | Some url => Some url
          | None => cover_loop images n' (S i)
          end
      | None => None
      end
  end.

(** Second loop, [for (let i = 0; i < Math.min(images.length, maxImages);
    i++)], with the array [imageUrls] as accumulator. *)
Fixpoint general_loop (images : list Img) (n : nat) (i : nat)
    (imageUrls : list string) : list string :=
  match n with
  | O => imageUrls
  | S n' =>
      match images !! i with
      | Some img =>
          match image_url img with
          | Some url => general_loop images n' (S i) (imageUrls ++ [url])
          | None => general_loop images n' (S i) imageUrls
          end
      | None => imageUrls
      end
  end.

(** Lines 31-83 on the parsed image list. *)
Definition extractImages (images : list Img) (maxImages : Z) : list string :=
  match cover_loop images (length images) 0 with
  | Some url => [url]
  | None =>
      let bound := Z.min (Z.of_nat (length images)) maxImages in
      general_loop images (Z.to_nat bound) 0 []
  end.

(** [extractImagesFromHtml(html, maxImages)] *)
Definition extractImagesFromHtml (html : string) (maxImages : Z) : list string :=
  if negb (truthy_string html) then []
  else extractImages (querySelectorAll_img html) maxImages.

(** The default of the second parameter, [maxImages = 3]. *)
Definition extractImagesFromHtml_default (html : string) : list string :=
  extractImagesFromHtml html 3.

(** The general rule as the specification words it: the first
    [maxResults] eligible URLs, ineligible images not counting. *)
Definition spec_general_rule (images : list Img) (maxResults : Z) : list string :=
  take (Z.to_nat maxResults) (omap image_url images).

(** The marker of the cover rule as the specification spells it. *)
Definition spec_cover_marker : string := "cover image".

(** No image matches the cover rule of the source. *)
Definition no_cover_match (images : list Img) : Prop :=
  Forall (fun img => cover_body img = None) images.

End Extractor.

(** ** Concrete markup *)

Definition forum_origin : string := "https://forum.example".

(** [<img src='/images/emoji/smile.png'><img src='/b.png'>] *)
Definition emoji_then_plain_html : string :=
  "<img src='/images/emoji/smile.png'><img src='/b.png'>".
Definition emoji_then_plain_dom : list Img :=
  [ mkImg None (Some "/images/emoji/smile.png") None;
    mkImg None (Some "/b.png") None ].

(** [<img alt='cover image' src='/a.png'><img src='/b.png'>] *)
Definition english_cover_html : string :=
  "<img alt='cover image' src='/a.png'><img src='/b.png'>".
Definition english_cover_dom : list Img :=
  [ mkImg (Some "cover image") (Some "/a.png") None;
    mkImg None (Some "/b.png") None ].

(** [<img src='/b.png'><img alt='封面图' src='/a.png'>] *)
Definition marked_cover_html : string :=
  "<img src='/b.png'><img alt='封面图' src='/a.png'>".
Definition marked_cover_dom : list Img :=
  [ mkImg None (Some "/b.png") None;
    mkImg (Some "封面图") (Some "/a.png") None ].

(** ** The loader: data model *)

(** A topic id is a JavaScript number or string; the cache is a [Map], whose
    keys [1] and ["1"] are different. *)
Abbreviation TopicId := (Z + string)%type.

(** A value stored in [imageCache]: [{ images, timestamp }]. *)
Record CacheEntry : Type := mkEntry {
  images : list string;
  timestamp : Z
}.

(** An element of [requestQueue]: [{ topicId, resolve, reject }]. The two
    callbacks belong to one promise, named by its number. *)
Record Request : Type := mkRequest {
  topicId : TopicId;
  promise : nat
}.

(** Exceptions the code meets. *)
Inductive JsError : Type :=
| Error (message : string)
| TypeError (message : string)
| SyntaxError (message : string).

(** The fields of the service (lines 9-19). *)
Record Loader : Type := mkLoader {
  requestQueue : list Request;
  activeRequests : Z;
  maxConcurrent : Z;
  requestDelay : Z;
  imageCache : gmap TopicId CacheEntry;
  cacheExpiry : Z
}.

Definition set_requestQueue (q : list Request) (L : Loader) : Loader :=
  mkLoader q (activeRequests L) (maxConcurrent L) (requestDelay L)
           (imageCache L) (cacheExpiry L).
Definition set_activeRequests (a : Z) (L : Loader) : Loader :=
  mkLoader (requestQueue L) a (maxConcurrent L) (requestDelay L)
           (imageCache L) (cacheExpiry L).
Definition set_maxConcurrent (m : Z) (L : Loader) : Loader :=
  mkLoader (requestQueue L) (activeRequests L) m (requestDelay L)
           (imageCache L) (cacheExpiry L).
Definition set_requestDelay (d : Z) (L : Loader) : Loader :=
  mkLoader (requestQueue L) (activeRequests L) (maxConcurrent L) d
           (imageCache L) (cacheExpiry L).
Definition set_imageCache (c : gmap TopicId CacheEntry) (L : Loader) : Loader :=
  mkLoader (requestQueue L) (activeRequests L) (maxConcurrent L)
           (requestDelay L) c (cacheExpiry L).

(** The field initialisers of the class. *)
Definition new_Loader : Loader :=
  mkLoader [] 0 1 300 ∅ (5 * 60 * 1000).

(** ** A state and exception monad for method bodies

    A body runs on the service's fields and either returns or throws; what
    it wrote before throwing stays written. *)

Inductive Completion (A : Type) : Type :=
| Return (a : A)
| Throw (e : JsError).
Arguments Return {A} a.
Arguments Throw {A} e.

Definition Js (A : Type) : Type := Loader -> Completion A * Loader.

Definition js_ret {A} (a : A) : Js A := fun L => (Return a, L).
Definition js_throw {A} (e : JsError) : Js A := fun L => (Throw e, L).
Definition js_bind {A B} (m : Js A) (k : A -> Js B) : Js B :=
  fun L =>
    match m L with
    | (Return a, L') => k a L'
    | (Throw e, L') => (Throw e, L')
    end.
Definition js_modify (f : Loader -> Loader) : Js unit := fun L => (Return tt, f L).

(** [try { body } catch (error) { handler }] *)
Definition try_catch {A} (body : Js A) (handler : JsError -> Js A) : Js A :=
  fun L =>
    match body L with
    | (Return a, L') => (Return a, L')
    | (Throw e, L') => handler e L'
    end.

Notation "x <- m ;; k" := (js_bind m (fun x => k))
  (at level 100, m at next level, right associativity).
Notation "m ;;; k" := (js_bind m (fun _ => k))
  (at level 100, right associativity).

(** ** What the network hands back *)

(** The part of the topic JSON that the code reads:
    [result.post_stream.posts[0].cooked]. An absent or [null] property is
    [None]; a [null] element of [posts] is [None] too. *)
Record Post : Type := mkPost { cooked : option string }.
Record PostStream : Type := mkPostStream { posts : option (list (option Post)) }.
Record TopicJson : Type := mkTopicJson { post_stream : option PostStream }.

(** What [await response.json()] gives. *)
Inductive JsonBody : Type :=
| BodyInvalid               (* the body is not JSON: [json()] rejects *)
| BodyNull                  (* the body is the JSON value [null] *)
| BodyTopic (t : TopicJson).

(** What [await fetch(...)] gives. *)
Inductive FetchOutcome : Type :=
| FetchRejects (e : JsError)                   (* network failure *)
| FetchResponse (status : Z) (body : JsonBody).

(** [response.ok]: the status is in the range 200-299 (Fetch standard). *)
Definition response_ok (status : Z) : bool :=
  (200 <=? status)%Z && (status <=? 299)%Z.

(** ** The event loop around the service

    [_processQueue] is an [async] method: each activation that dequeues a
    request is suspended at the timer (line 151) and at the call of
    [_loadTopicImagesInternal] (line 153). A suspended activation is a
    task, named by the promise of its request. *)

Inductive Phase : Type :=
| Delaying (delay : Z)                     (* at line 151, timer of [delay] ms *)
| Fetching                                 (* at line 153, the fetch is out *)
| Completed (c : Completion (list string)). (* line 153 has its result *)

Record Task : Type := mkTask {
  task_topic : TopicId;
  phase : Phase
}.

(** How a promise handed to a caller ended. *)
Inductive Settlement : Type :=
| Resolved (value : list string)
| Rejected (error : JsError).

(** The service, its suspended activations and the promises settled so far.
    The last three fields are history only: every request pushed on the
    queue, every request taken from it, and every [fetch] sent, in order. *)
Record World : Type := mkWorld {
  loader : Loader;
  tasks : gmap nat Task;
  settled : list (nat * Settlement);
  next_promise : nat;
  enqueued : list Request;
  dispatched : list Request;
  fetched : list TopicId
}.

Definition new_World : World := mkWorld new_Loader ∅ [] 0 [] [] [].

(** What the environment can do next. *)
Inductive Event : Type :=
| Call (id : TopicId) (now1 now2 : Z)
    (* a caller runs [loadTopicImages(id)]; [now1] and [now2] are the values
       of [Date.now()] in the sweep and in the validity check *)
| TimerFires (p : nat)
    (* the timer of task [p] elapses: [_loadTopicImagesInternal] is called
       and sends the fetch *)
| FetchCompletes (p : nat) (out : FetchOutcome) (now : Z)
    (* the fetch of task [p], and for a 2xx response its body, arrive *)
| Resumes (p : nat).
    (* [_processQueue] of task [p] continues after line 153 *)

Section Loader.

Variable origin : string.
Variable querySelectorAll_img : string -> list Img.

Abbreviation extract := (extractImagesFromHtml origin querySelectorAll_img).

(** ** [_loadTopicImagesInternal] *)

(** [await response.json()] *)
Definition await_json (body : JsonBody) : Js (option TopicJson) :=
  match body with
  | BodyInvalid => js_throw (SyntaxError "Unexpected token")
  | BodyNull => js_ret None
  | BodyTopic t => js_ret (Some t)
  end.

(** Lines 111-122. *)
Definition first_post_images (result : option TopicJson) : Js (list string) :=
  match result with
  | None => js_throw (TypeError "Cannot read properties of null")
  | Some t =>
      match post_stream t with
      | None => js_ret []
      | Some ps =>
          match posts ps with
          | None => js_ret []
          | Some l =>
              if (0 <? Z.of_nat (length l))%Z then
                match l !! 0%nat with
                | Some (Some firstPost) =>
                    match cooked firstPost with
                    | Some c => if truthy_string c then js_ret (extract c 3)
                                else js_ret []
                    | None => js_ret []
                    end
                | Some None => js_throw (TypeError "Cannot read properties of null")
                | None => js_ret []
                end
              else js_ret []
          end
      end
  end.

(** The [try] block, lines 91-129. [out] is the outcome of the [fetch],
    [now] the value of [Date.now()] at line 127. *)
Definition internal_try (id : TopicId) (out : FetchOutcome) (now : Z)
    : Js (list string) :=
  match out with
  | FetchRejects e => js_throw e
  | FetchResponse status body =>
      if negb (response_ok status) then
        if (status =? 429)%Z then
          js_modify (fun L => set_requestDelay (Z.min (requestDelay L * 2) 5000) L) ;;;
          js_modify (set_maxConcurrent 1) ;;;
          js_throw (Error "Rate limit exceeded")
        else
          js_throw (Error ("HTTP error! status: " +:+ pretty status))
      else
        result <- await_json body ;;
        imgs <- first_post_images result ;;
        js_modify (fun L =>
          set_imageCache (<[id := mkEntry imgs now]> (imageCache L)) L) ;;;
        js_ret imgs
  end.

(** The [catch] block, lines 130-133: log and return the empty array. *)
Definition internal_catch (error : JsError) : Js (list string) := js_ret [].

Definition _loadTopicImagesInternal (id : TopicId) (out : FetchOutcome) (now : Z)
    : Js (list string) :=
  try_catch (internal_try id out now) internal_catch.

(** ** Cache validity and sweep *)

(** [_isCacheValid(cacheEntry)], with [now] the value of [Date.now()]. *)
Definition _isCacheValid (L : Loader) (cacheEntry : option CacheEntry) (now : Z)
    : bool :=
  match cacheEntry with
  | None => false
  | Some e => (now - timestamp e <? cacheExpiry L)%Z
  end.

(** One iteration of the loop of [_cleanExpiredCache]. *)
Definition sweep_entry (now expiry : Z) (kv : TopicId * CacheEntry)
    (m : gmap TopicId CacheEntry) : gmap TopicId CacheEntry :=
  if (now - timestamp kv.2 >=? expiry)%Z then delete kv.1 m else m.

(** [_cleanExpiredCache()]: the loop over [imageCache.entries()]. *)
Definition _cleanExpiredCache (now : Z) (L : Loader) : Loader :=
  set_imageCache
    (foldr (sweep_entry now (cacheExpiry L)) (imageCache L)
           (map_to_list (imageCache L))) L.

(** ** [_processQueue], [loadTopicImages] and the steps of the loop *)

(** [_processQueue()] up to its first [await] (lines 140-151). *)
Definition _processQueue (w : World) : World :=
  let L := loader w in
  if (Z.of_nat (length (requestQueue L)) =? 0)%Z
     || (activeRequests L >=? maxConcurrent L)%Z
  then w
  else
    match requestQueue L with
    | [] => w
    | r :: rest =>
        let L' := set_activeRequests (activeRequests L + 1)
                    (set_requestQueue rest L) in
        mkWorld L'
          (<[promise r := mkTask (topicId r) (Delaying (requestDelay L'))]> (tasks w))
          (settled w) (next_promise w) (enqueued w)
          (dispatched w ++ [r]) (fetched w)
    end.

(** [resolve(images)] or [reject(error)] of the request with promise [p]. *)
Definition settle (p : nat) (c : Completion (list string)) (w : World) : World :=
  let outcome := match c with
                 | Return imgs => Resolved imgs
                 | Throw e => Rejected e
                 end in
  mkWorld (loader w) (tasks w) (settled w ++ [(p, outcome)]) (next_promise w)
          (enqueued w) (dispatched w) (fetched w).

(** The [finally] block, lines 157-161. *)
Definition finally_block (p : nat) (w : World) : World :=
  let L := loader w in
  _processQueue
    (mkWorld (set_activeRequests (activeRequests L - 1) L)
             (delete p (tasks w)) (settled w) (next_promise w)
             (enqueued w) (dispatched w) (fetched w)).

(** [loadTopicImages(topicId)], lines 188-208. The promise it returns is
    number [next_promise w]. *)
Definition loadTopicImages (id : TopicId) (now1 now2 : Z) (w : World) : World :=
  let p := next_promise w in
  let L1 := _cleanExpiredCache now1 (loader w) in
  let cacheEntry := imageCache L1 !! id in
  let miss (L2 : Loader) :=
    let r := mkRequest id p in
    _processQueue
      (mkWorld (set_requestQueue (requestQueue L2 ++ [r]) L2)
               (tasks w) (settled w) (S p)
               (enqueued w ++ [r]) (dispatched w) (fetched w)) in
  match cacheEntry with
  | Some e =>
      if _isCacheValid L1 cacheEntry now2 then
        mkWorld L1 (tasks w) (settled w ++ [(p, Resolved (images e))]) (S p)
                (enqueued w) (dispatched w) (fetched w)
      else
        miss (set_imageCache (delete id (imageCache L1)) L1)
  | None => miss L1
  end.

(** One step of the loop; [None] when the event cannot happen in [w]. *)
Definition step (w : World) (ev : Event) : option World :=
  match ev with
  | Call id now1 now2 => Some (loadTopicImages id now1 now2 w)
  | TimerFires p =>
      match tasks w !! p with
      | Some (mkTask id (Delaying _)) =>
          Some (mkWorld (loader w) (<[p := mkTask id Fetching]> (tasks w))
                        (settled w) (next_promise w) (enqueued w)
                        (dispatched w) (fetched w ++ [id]))
      | _ => None
      end
  | FetchCompletes p out now =>
      match tasks w !! p with
      | Some (mkTask id Fetching) =>
          let '(c, L') := _loadTopicImagesInternal id out now (loader w) in
          Some (mkWorld L' (<[p := mkTask id (Completed c)]> (tasks w))
                        (settled w) (next_promise w) (enqueued w)
                        (dispatched w) (fetched w))
      | _ => None
      end
  | Resumes p =>
      match tasks w !! p with
      | Some (mkTask id (Completed c)) => Some (finally_block p (settle p c w))
      | _ => None
      end
  end.

(** Running a list of events. *)
Fixpoint run (w : World) (evs : list Event) : option World :=
  match evs with
  | [] => Some w
  | ev :: rest =>
      match step w ev with
      | Some w' => run w' rest
      | None => None
      end
  end.

(** The states a service can be in. *)
Inductive reachable : World -> Prop :=
| reachable_new : reachable new_World
| reachable_step w ev w' :
    reachable w -> step w ev = Some w' -> reachable w'.

(** The counter agrees with the suspended activations and stays within
    the limit, which is 1. *)
Definition bounded (w : World) : Prop :=
  maxConcurrent (loader w) = 1%Z /\
  activeRequests (loader w) = Z.of_nat (size (tasks w)) /\
  (activeRequests (loader w) <= maxConcurrent (loader w))%Z.

(** What was pushed is what was taken followed by what still waits. *)
Definition fifo (w : World) : Prop :=
  enqueued w = (dispatched w ++ requestQueue (loader w))%list.

(** No promise was rejected and no finished call of
    [_loadTopicImagesInternal] threw. *)
Definition only_resolves (w : World) : Prop :=
  (forall p s, (p, s) ∈ settled w -> exists v, s = Resolved v) /\
  (forall p id c, tasks w !! p = Some (mkTask id (Completed c)) ->
                  exists v, c = Return v).

(** The event is the arrival of a 429 response. *)
Definition is_rate_limit_event (ev : Event) : bool :=
  match ev with
  | FetchCompletes _ (FetchResponse status _) _ => (status =? 429)%Z
  | _ => false
  end.

(** The number of fetches that are out. *)
Definition is_fetching (ph : Phase) : bool :=
  match ph with
  | Fetching => true
  | _ => false
  end.

Definition in_flight (w : World) : nat :=
  size (filter (fun kt : nat * Task => is_fetching (phase kt.2) = true) (tasks w)).

End Loader.

(** ** Concrete states of the service *)

(** A parser stand-in for runs whose markup is [marked_cover_html]. *)
Definition marked_cover_parser : string -> list Img := fun _ => marked_cover_dom.

(** A topic JSON whose first post has [marked_cover_html] as [cooked]. *)
Definition marked_cover_body : JsonBody :=
  BodyTopic (mkTopicJson (Some (mkPostStream
    (Some [Some (mkPost (Some marked_cover_html))])))).

(** After [loadTopicImages(7)] on a new service and the end of the delay:
    the fetch for topic 7 is out. *)
Definition fetching_world : World :=
  mkWorld (mkLoader [] 1 1 300 ∅ 300000)
          {[ 0%nat := mkTask (inl 7%Z) Fetching ]}
          [] 1 [mkRequest (inl 7%Z) 0] [mkRequest (inl 7%Z) 0] [inl 7%Z].

(** After that fetch succeeded at time 1000 and the promise was resolved. *)
Definition cached_world : World :=
  mkWorld (mkLoader [] 0 1 300
             {[ inl 7%Z := mkEntry ["https://forum.example/a.png"] 1000 ]} 300000)
          ∅ [(0%nat, Resolved ["https://forum.example/a.png"])] 1
          [mkRequest (inl 7%Z) 0] [mkRequest (inl 7%Z) 0] [inl 7%Z].

(** A service whose [maxConcurrent] was set to 2 from outside the class,
    with two fetches out. *)
Definition two_fetching_world : World :=
  mkWorld (mkLoader [] 2 2 300 ∅ 300000)
          {[ 0%nat := mkTask (inl 7%Z) Fetching; 1%nat := mkTask (inl 8%Z) Fetching ]}
          [] 2 [mkRequest (inl 7%Z) 0; mkRequest (inl 8%Z) 1]
          [mkRequest (inl 7%Z) 0; mkRequest (inl 8%Z) 1] [inl 7%Z; inl 8%Z].

(** ** Further notions about the states of the service *)

(** A result as the service hands it out: at most three URLs, each of which
    passes the exclusion filter. *)
Definition well_formed_result (v : list string) : Prop :=
  (length v <= 3)%nat /\ Forall (fun url => passes_filter url = true) v.

(** Every promise handed out so far is in exactly one place: waiting in the
    queue, held by a suspended activation, or settled; none is there
    twice. *)
Definition accounted (w : World) : Prop :=
  NoDup (promise <$> requestQueue (loader w)) /\
  NoDup (settled w).*1 /\
  (forall p, p ∈ promise <$> requestQueue (loader w) ->
             tasks w !! p = None /\ p ∉ (settled w).*1) /\
  (forall p, is_Some (tasks w !! p) -> p ∉ (settled w).*1) /\
  (forall p, (p < next_promise w)%nat <->
             (p ∈ promise <$> requestQueue (loader w) \/
              is_Some (tasks w !! p) \/
              p ∈ (settled w).*1)).

(** Requests wait only while another one is being served. *)
Definition no_stall (w : World) : Prop :=
  requestQueue (loader w) = [] \/ tasks w <> ∅.

(** The requests that still have to be served. *)
Definition pending_work (w : World) : nat :=
  (length (requestQueue (loader w)) + size (tasks w))%nat.

(** An event of a schedule in which no new call arrives and the fetch of
    promise [p] ends as [outcome p] says, at time [now]. *)
Definition served_by (outcome : nat -> FetchOutcome) (now : Z) (ev : Event) : Prop :=
  match ev with
  | Call _ _ _ => False
  | TimerFires _ => True
  | FetchCompletes p out t => out = outcome p /\ t = now
  | Resumes _ => True
  end.

(** The JSON of a topic gives the extractor nothing to read: no
    [post_stream], no [posts], an empty [posts], or a first post whose
    [cooked] is missing or empty. *)
Definition no_content (t : TopicJson) : Prop :=
  match post_stream t with
  | None => True
  | Some ps =>
      match posts ps with
      | None => True
      | Some [] => True
      | Some (Some firstPost :: _) => truthy (cooked firstPost) = false
      | Some (None :: _) => False
      end
  end.

(** Everything the service has resolved, stored or is about to resolve is
    well formed. *)
Definition results_well_formed (w : World) : Prop :=
  (forall p v, (p, Resolved v) ∈ settled w -> well_formed_result v) /\
  (forall k e, imageCache (loader w) !! k = Some e -> well_formed_result (images e)) /\
  (forall p id v, tasks w !! p = Some (mkTask id (Completed (Return v))) ->
                  well_formed_result v).

(** ** The caller: the component [TopicListThumbnail]

    Of [javascripts/discourse/components/topic-list-thumbnail.gjs]:
    [loadImages], [imageUrls] and [hasThumbnail], with the tracked fields
    they use. *)

(** The topic of the component, as far as these three read it: [topic.id],
    [topic.get?.("id")] ([None] when the topic has no [get]) and the [url]
    of each element of [topic.thumbnails]. *)
Record Topic : Type := mkTopic {
  topic_id : option TopicId;
  topic_get_id : option (option TopicId);
  thumbnails : option (list (option string))
}.

(** The tracked fields (lines 14-16). *)
Record Component : Type := mkComponent {
  extractedImages : list string;
  isLoading : bool;
  hasLoaded : bool
}.

Definition new_Component : Component := mkComponent [] false false.

(** [!!v] for a topic id: [0], the empty string and [undefined] are falsy. *)
Definition truthy_id (v : option TopicId) : bool :=
  match v with
  | Some (inl n) => negb (n =? 0)%Z
  | Some (inr s) => truthy_string s
  | None => false
  end.

(** [this.topic.id || this.topic.get?.("id")] (line 51). *)
Definition loadImages_topicId (topic : Topic) : option TopicId :=
  if truthy_id (topic_id topic) then topic_id topic
  else match topic_get_id topic with
       | Some v => v
       | None => None
       end.

(** [loadImages()] up to its [await] (lines 43-55): the fields afterwards
    and the id handed to [contentLoader.loadTopicImages], when the call is
    made. *)
Definition loadImages_begin (displayBlogStyle : bool) (topic : Topic)
    (c : Component) : Component * option TopicId :=
  if isLoading c || hasLoaded c then (c, None)
  else if displayBlogStyle then
    let topicId := loadImages_topicId topic in
    if truthy_id topicId then
      match topicId with
      | Some id => (mkComponent (extractedImages c) true (hasLoaded c), Some id)
      | None => (c, None)
      end
    else (c, None)
  else (c, None).

(** [loadImages()] after its [await] (lines 55-62). *)
Definition loadImages_end (outcome : Settlement) (c : Component) : Component :=
  match outcome with
  | Resolved imgs => mkComponent imgs false true
  | Rejected _ => mkComponent (extractedImages c) false (hasLoaded c)
  end.

(** [get imageUrls()] (lines 120-133); a thumbnail without [url] gives a
    [None] element. *)
Definition imageUrls (displayBlogStyle : bool) (topic : Topic) (c : Component)
    : list (option string) :=
  if displayBlogStyle then Some <$> extractedImages c
  else
    match thumbnails topic with
    | Some (u :: _) => [u]
    | _ => []
    end.

(** [get hasThumbnail()] (lines 34-41). *)
Definition hasThumbnail (displayBlogStyle : bool) (topic : Topic) (c : Component)
    : bool :=
  if displayBlogStyle then
    (0 <? Z.of_nat (length (imageUrls displayBlogStyle topic c)))%Z
  else
    match thumbnails topic with
    | Some _ => true
    | None => false
    end.

(** How the promise [p] ended, if it has. *)
Fixpoint settlement_of (p : nat) (l : list (nat * Settlement)) : option Settlement :=
  match l with
  | [] => None
  | (q, s) :: rest => if decide (q = p) then Some s else settlement_of p rest
  end.

(** One component and the service it uses. [awaiting] is the promise on
    which [loadImages] is suspended; [calls] is history: for each call of
    [loadTopicImages] by this component, the id it passed and the promise
    it got back. *)
Record Ui : Type := mkUi {
  component : Component;
  awaiting : option nat;
  calls : list (TopicId * nat);
  service : World
}.

Definition new_Ui : Ui := mkUi new_Component None [] new_World.

Inductive UiEvent : Type :=
| Visible (displayBlogStyle : bool) (topic : Topic) (now1 now2 : Z)
    (* [loadImages()] is invoked, by the observer or by the modifier *)
| Service (ev : Event)
    (* the service moves; this includes calls by other components *)
| Continues.
    (* [loadImages()] continues after its [await] *)

Section ComponentSteps.

Variable origin : string.
Variable querySelectorAll_img : string -> list Img.

Definition ui_step (u : Ui) (ev : UiEvent) : option Ui :=
  match ev with
  | Visible displayBlogStyle topic now1 now2 =>
      match loadImages_begin displayBlogStyle topic (component u) with
      | (c', Some id) =>
          Some (mkUi c' (Some (next_promise (service u)))
                     (calls u ++ [(id, next_promise (service u))])
                     (loadTopicImages id now1 now2 (service u)))
      | (c', None) => Some (mkUi c' (awaiting u) (calls u) (service u))
      end
  | Service ev' =>
      match step origin querySelectorAll_img (service u) ev' with
      | Some w' => Some (mkUi (component u) (awaiting u) (calls u) w')
      | None => None
      end
  | Continues =>
      match awaiting u with
      | Some p =>
          match settlement_of p (settled (service u)) with
          | Some s => Some (mkUi (loadImages_end s (component u)) None
                                 (calls u) (service u))
          | None => None
          end
      | None => None
      end
  end.

Inductive ui_reachable : Ui -> Prop :=
| ui_reachable_new : ui_reachable new_Ui
| ui_reachable_step u ev u' :
    ui_reachable u -> ui_step u ev = Some u' -> ui_reachable u'.

(** Running a list of events. *)
Fixpoint ui_run (u : Ui) (evs : list UiEvent) : option Ui :=
  match evs with
  | [] => Some u
  | ev :: rest =>
      match ui_step u ev with
      | Some u' => ui_run u' rest
      | None => None
      end
  end.

(** The three stages of a component: nothing asked yet, waiting for the
    promise of the one call it made, or loaded with what that very promise
    was resolved with. *)
Definition ui_stage (u : Ui) : Prop :=
  (calls u = [] /\ component u = new_Component /\ awaiting u = None) \/
  (exists id p, calls u = [(id, p)] /\ component u = mkComponent [] true false /\
                awaiting u = Some p) \/
  (exists id p v, calls u = [(id, p)] /\ component u = mkComponent v false true /\
                  awaiting u = None /\
                  settlement_of p (settled (service u)) = Some (Resolved v)).

End ComponentSteps.

(** A topic with id 7 and no thumbnails. *)
Definition topic_seven : Topic := mkTopic (Some (inl 7%Z)) None None.

(** After the fetch for topic 7 was answered with a 429, before
    [_processQueue] resumes. *)
Definition backed_off_world : World :=
  mkWorld (mkLoader [] 1 1 600 ∅ 300000)
          {[ 0%nat := mkTask (inl 7%Z) (Completed (Return [])) ]}
          [] 1 [mkRequest (inl 7%Z) 0] [mkRequest (inl 7%Z) 0] [inl 7%Z].

(** A component in blog style whose call for topic 7 (promise 1) was
    queued behind another caller's request for topic 8 (promise 0): the
    other fetch succeeded, its own was answered with a 429, and it has
    continued after its [await]. *)
Definition loaded_ui_events : list UiEvent :=
  [ Service (Call (inl 8%Z) 0 0);
    Visible true topic_seven 1 1;
    Service (TimerFires 0);
    Service (FetchCompletes 0 (FetchResponse 200 marked_cover_body) 1000);
    Service (Resumes 0);
    Service (TimerFires 1);
    Service (FetchCompletes 1 (FetchResponse 429 BodyInvalid) 2000);
    Service (Resumes 1);
    Continues ].

Definition loaded_ui : Ui :=
  mkUi (mkComponent [] false true) None [(inl 7%Z, 1%nat)]
       (mkWorld (mkLoader [] 0 1 600
                   {[ inl 8%Z := mkEntry ["https://forum.example/a.png"] 1000 ]}
                   300000)
                ∅
                [(0%nat, Resolved ["https://forum.example/a.png"]);
                 (1%nat, Resolved [])] 2
                [mkRequest (inl 8%Z) 0; mkRequest (inl 7%Z) 1]
                [mkRequest (inl 8%Z) 0; mkRequest (inl 7%Z) 1]
                [inl 8%Z; inl 7%Z]).

(** A topic whose [thumbnails] is an empty array. *)
Definition topic_with_no_thumbnail : Topic :=
  mkTopic (Some (inl 7%Z)) None (Some []).


(** The request of a suspended activation is the last one taken from the
    queue, and the fetches sent are those of the requests taken, but for
    the one whose delay is still running. *)
Definition fetches_follow (w : World) : Prop :=
  (forall p t, tasks w !! p = Some t ->
     exists d0,
       dispatched w = (d0 ++ [mkRequest (task_topic t) p])%list /\
       fetched w = topicId <$> (match phase t with
                                | Delaying _ => d0
                                | _ => dispatched w
                                end)) /\
  (tasks w = ∅ -> fetched w = topicId <$> dispatched w).

(** The service of [cached_world] after a call for topic 8 whose fetch is
    out: busy, with the entry for topic 7 still in the cache. *)
Definition busy_cached_world : World :=
  mkWorld (mkLoader [] 1 1 300
             {[ inl 7%Z := mkEntry ["https://forum.example/a.png"] 1000 ]} 300000)
          {[ 1%nat := mkTask (inl 8%Z) Fetching ]}
          [(0%nat, Resolved ["https://forum.example/a.png"])] 2
          [mkRequest (inl 7%Z) 0; mkRequest (inl 8%Z) 1]
          [mkRequest (inl 7%Z) 0; mkRequest (inl 8%Z) 1] [inl 7%Z; inl 8%Z].

(** * Properties of the extractor *)

Section ExtractorProperties.

Variable origin : string.
Variable querySelectorAll_img : string -> list Img.


Lemma alt_or_empty img : default "" (js_or (alt img) (Some "")) = alt_text img.
Proof.
  unfold alt_text, js_or. destruct (alt img) as [[|c s]|]; reflexivity.
Qed.

Lemma cover_body_Some img url :
  cover_body origin img = Some url <->
  includes (alt_text img) cover_marker = true /\ image_url origin img = Some url.
Proof.
  unfold cover_body. cbv zeta. rewrite alt_or_empty.
  destruct (includes (alt_text img) cover_marker); split.
  - intros H; split; [reflexivity | exact H].
  - intros [_ H]; exact H.
  - discriminate.
  - intros [H _]; discriminate.
Qed.

Lemma drop_lookup_cons (images : list Img) i img :
  images !! i = Some img -> drop i images = img :: drop (S i) images.
Proof.
  revert i. induction images as [|x xs IH]; intros [|i] H; simplify_eq/=.
  - by rewrite drop_0.
  - by apply IH.
Qed.

Lemma drop_lookup_nil (images : list Img) i :
  images !! i = None -> drop i images = [].
Proof. intros H. apply drop_ge. by apply lookup_ge_None. Qed.

(** The first loop returns the first URL that [cover_body] yields. *)
Lemma cover_loop_head images n i :
  cover_loop origin images n i = head (omap (cover_body origin) (take n (drop i images))).
Proof.
  revert i. induction n as [|n IH]; intros i; [reflexivity|].
  cbn [cover_loop]. destruct (images !! i) as [img|] eqn:Hi.
  - rewrite (drop_lookup_cons _ _ _ Hi). cbn [take omap list_omap].
    destruct (cover_body origin img) as [url|] eqn:Hc; [reflexivity|]. apply IH.
  - by rewrite (drop_lookup_nil _ _ Hi), take_nil.
Qed.

(** The second loop appends the URLs of the [n] elements from index [i]. *)
Lemma general_loop_omap images n i acc :
  general_loop origin images n i acc
  = (acc ++ omap (image_url origin) (take n (drop i images)))%list.
Proof.
  revert i acc. induction n as [|n IH]; intros i acc.
  - cbn. by rewrite take_0, app_nil_r.
  - cbn [general_loop]. destruct (images !! i) as [img|] eqn:Hi.
    + rewrite (drop_lookup_cons _ _ _ Hi). cbn [take omap list_omap].
      destruct (image_url origin img) as [url|] eqn:Hu; rewrite IH.
      * by rewrite <- app_assoc.
      * reflexivity.
    + by rewrite (drop_lookup_nil _ _ Hi), take_nil, app_nil_r.
Qed.

Lemma take_min_length (images : list Img) (maxImages : Z) :
  take (Z.to_nat (Z.min (Z.of_nat (length images)) maxImages)) images
  = take (Z.to_nat maxImages) images.
Proof.
  destruct (Z.le_gt_cases (Z.of_nat (length images)) maxImages) as [Hle|Hgt].
  - rewrite Z.min_l by lia. rewrite Nat2Z.id.
    rewrite !take_ge; [reflexivity | lia | lia].
  - by rewrite Z.min_r by lia.
Qed.

(** [extractImages] in closed form. *)
Lemma extractImages_eq images maxImages :
  extractImages origin images maxImages =
  match head (omap (cover_body origin) images) with
  | Some url => [url]
  | None => omap (image_url origin) (take (Z.to_nat maxImages) images)
  end.
Proof.
  unfold extractImages. rewrite cover_loop_head, drop_0, firstn_all.
  destruct (head (omap (cover_body origin) images)); [reflexivity|].
  cbv zeta. rewrite general_loop_omap, drop_0, take_min_length. reflexivity.
Qed.

Lemma no_cover_head images :
  no_cover_match origin images -> head (omap (cover_body origin) images) = None.
Proof.
  unfold no_cover_match. induction 1 as [|img l H _ IH]; [reflexivity|].
  cbn. rewrite H. exact IH.
Qed.

(** First element of a list on which [f] is defined. *)
Lemma head_omap_first {A B} (f : A -> option B) (l : list A) x y :
  x ∈ l -> f x = Some y ->
  exists i x0 y0, l !! i = Some x0 /\ f x0 = Some y0 /\
    head (omap f l) = Some y0 /\
    (forall j x', (j < i)%nat -> l !! j = Some x' -> f x' = None).
Proof.
  induction l as [|a l IH]; intros Hin Hf; [by apply elem_of_nil in Hin|].
  destruct (f a) as [b|] eqn:Ha.
  - exists 0%nat, a, b. cbn. rewrite Ha. repeat split; try reflexivity.
    intros j x' Hj. lia.
  - apply elem_of_cons in Hin as [->|Hin]; [congruence|].
    destruct (IH Hin Hf) as (i & x0 & y0 & Hi & Hx0 & Hh & Hlt).
    exists (S i), x0, y0. cbn. rewrite Ha. repeat split; try assumption.
    intros [|j] x' Hj Hl; cbn in Hl; [congruence|].
    apply (Hlt j); [lia | exact Hl].
Qed.

Lemma image_url_Some img url :
  image_url origin img = Some url <->
  exists s, js_or (src img) (data_src img) = Some s /\
            truthy_string s = true /\
            url = resolve_url origin s /\
            passes_filter url = true.
Proof.
  unfold image_url. cbv zeta.
  destruct (js_or (src img) (data_src img)) as [s|]; split.
  - destruct (truthy_string s) eqn:Ht; [|discriminate].
    destruct (passes_filter (resolve_url origin s)) eqn:Hp; [|discriminate].
    intros [= <-]. exists s. repeat split; assumption.
  - intros (s' & [= <-] & Ht & -> & Hp). by rewrite Ht, Hp.
  - discriminate.
  - intros (s' & Hs & _). discriminate.
Qed.

(** C2 (amended). When no image matches the cover rule, the extractor
    reads only the first [maxImages] image elements of the markup, in
    document order, and returns the URLs of those among them that have a
    source and pass the exclusion filter: an image that is skipped still
    uses up one of the [maxImages] places. In particular, for markup with
    at most [maxImages] image elements, it returns all eligible URLs in
    document order. *)
Theorem general_rule_reads_first_maxImages html maxImages :
  truthy_string html = true ->
  no_cover_match origin (querySelectorAll_img html) ->
  extractImagesFromHtml origin querySelectorAll_img html maxImages
    = omap (image_url origin) (take (Z.to_nat maxImages) (querySelectorAll_img html))
  /\ ((Z.of_nat (length (querySelectorAll_img html)) <= maxImages)%Z ->
      extractImagesFromHtml origin querySelectorAll_img html maxImages = omap (image_url origin) (querySelectorAll_img html)).
Proof.
  intros Hhtml Hno. unfold extractImagesFromHtml. rewrite Hhtml. cbn [negb].
  rewrite extractImages_eq, (no_cover_head _ Hno). split; [reflexivity|].
  intros Hle. rewrite take_ge by lia. reflexivity.
Qed.

(** C3 (amended). The marker of the cover rule is the string "封面图":
    for markup with an image whose [alt] contains that marker and whose
    resolved URL passes the exclusion filter, the extractor returns,
    whatever [maxImages] is, the one-element list holding the URL of the
    first such image in document order. *)
Theorem cover_rule_returns_first_match html maxImages img url :
  truthy_string html = true ->
  img ∈ querySelectorAll_img html ->
  includes (alt_text img) cover_marker = true ->
  image_url origin img = Some url ->
  exists i img0 url0,
    querySelectorAll_img html !! i = Some img0 /\
    includes (alt_text img0) cover_marker = true /\
    image_url origin img0 = Some url0 /\
    (forall j img', (j < i)%nat -> querySelectorAll_img html !! j = Some img' ->
                    cover_body origin img' = None) /\
    extractImagesFromHtml origin querySelectorAll_img html maxImages = [url0].
Proof.
  intros Hhtml Hin Halt Hurl.
  assert (Hc : cover_body origin img = Some url) by (apply cover_body_Some; auto).
  destruct (head_omap_first (cover_body origin) _ _ _ Hin Hc)
    as (i & img0 & url0 & Hi & Hc0 & Hhead & Hbefore).
  apply cover_body_Some in Hc0 as [Halt0 Hurl0].
  exists i, img0, url0. repeat split; try assumption.
  unfold extractImagesFromHtml. rewrite Hhtml. cbn [negb].
  rewrite extractImages_eq, Hhead. reflexivity.
Qed.

End ExtractorProperties.

(** With one place and an emoji first, the extractor returns nothing, while
    the first eligible URL exists: the skipped emoji used the place. Here
    the markup has N = 1 eligible image and [maxImages] = 1. *)
Lemma general_rule_skip_consumes_limit :
  no_cover_match forum_origin emoji_then_plain_dom /\
  length (omap (image_url forum_origin) emoji_then_plain_dom) = 1%nat /\
  spec_general_rule forum_origin emoji_then_plain_dom 1
    = ["https://forum.example/b.png"] /\
  extractImagesFromHtml forum_origin (fun _ => emoji_then_plain_dom)
    emoji_then_plain_html 1 = [] /\
  extractImagesFromHtml forum_origin (fun _ => emoji_then_plain_dom)
    emoji_then_plain_html 1
  <> spec_general_rule forum_origin emoji_then_plain_dom 1.
Proof.
  split; [repeat constructor|].
  split; [reflexivity|]. split; [reflexivity|]. split; [reflexivity|].
  vm_compute. discriminate.
Qed.

Lemma general_rule_reads_first_maxImages_witness :
  extractImagesFromHtml forum_origin (fun _ => emoji_then_plain_dom)
    emoji_then_plain_html 2 = ["https://forum.example/b.png"].
Proof.
  destruct (general_rule_reads_first_maxImages forum_origin
              (fun _ => emoji_then_plain_dom) emoji_then_plain_html 2)
    as [H _]; [reflexivity | repeat constructor | ].
  rewrite H. reflexivity.
Defined.

(** An [alt] that contains the words "cover image" does not trigger the
    cover rule: both images are returned. *)
Lemma english_marker_is_not_the_cover_marker :
  includes (alt_text (mkImg (Some "cover image") (Some "/a.png") None))
           spec_cover_marker = true /\
  image_url forum_origin (mkImg (Some "cover image") (Some "/a.png") None)
    = Some "https://forum.example/a.png" /\
  extractImagesFromHtml forum_origin (fun _ => english_cover_dom)
    english_cover_html 3
    = ["https://forum.example/a.png"; "https://forum.example/b.png"] /\
  extractImagesFromHtml forum_origin (fun _ => english_cover_dom)
    english_cover_html 3
  <> ["https://forum.example/a.png"].
Proof.
  split; [reflexivity|]. split; [reflexivity|]. split; [reflexivity|].
  vm_compute. discriminate.
Qed.

Lemma cover_rule_returns_first_match_witness :
  exists i img0 url0,
    marked_cover_dom !! i = Some img0 /\
    includes (alt_text img0) cover_marker = true /\
    image_url forum_origin img0 = Some url0 /\
    (forall j img', (j < i)%nat -> marked_cover_dom !! j = Some img' ->
                    cover_body forum_origin img' = None) /\
    extractImagesFromHtml forum_origin (fun _ => marked_cover_dom)
      marked_cover_html 1 = [url0].
Proof.
  apply (cover_rule_returns_first_match forum_origin (fun _ => marked_cover_dom)
           marked_cover_html 1
           (mkImg (Some "封面图") (Some "/a.png") None)
           "https://forum.example/a.png").
  - reflexivity.
  - apply list_elem_of_further, list_elem_of_here.
  - reflexivity.
  - reflexivity.
Defined.

(** * Properties of the loader *)

Section LoaderProperties.

Variable origin : string.
Variable querySelectorAll_img : string -> list Img.


(** ** The body of [_loadTopicImagesInternal] *)

Lemma await_json_state body c (L L' : Loader) :
  await_json body L = (c, L') -> L' = L.
Proof. destruct body; cbn; intros [= _ <-]; reflexivity. Qed.

Lemma first_post_images_state result c (L L' : Loader) :
  first_post_images origin querySelectorAll_img result L = (c, L') -> L' = L.
Proof.
  unfold first_post_images, js_ret, js_throw.
  repeat case_match; intros [= _ <-]; reflexivity.
Qed.

(** A 429 response: the two fields are rewritten, then the error is
    thrown. *)
Lemma internal_try_429 id body now L :
  internal_try origin querySelectorAll_img id (FetchResponse 429 body) now L
  = (Throw (Error "Rate limit exceeded"),
     set_maxConcurrent 1
       (set_requestDelay (Z.min (requestDelay L * 2) 5000) L)).
Proof. reflexivity. Qed.

(** Another status outside 200-299: the error carries the status. *)
Lemma internal_try_http_error id status body now L :
  response_ok status = false -> status <> 429%Z ->
  internal_try origin querySelectorAll_img id (FetchResponse status body) now L
  = (Throw (Error ("HTTP error! status: " +:+ pretty status)), L).
Proof.
  intros Hok Hne. unfold internal_try. rewrite Hok. cbn [negb].
  apply Z.eqb_neq in Hne. rewrite Hne. reflexivity.
Qed.

(** What the [try] block does to the fields, by the way it ends. *)
Lemma internal_try_effect id out now L c L' :
  internal_try origin querySelectorAll_img id out now L = (c, L') ->
  requestQueue L' = requestQueue L /\
  activeRequests L' = activeRequests L /\
  cacheExpiry L' = cacheExpiry L /\
  match c with
  | Throw _ => imageCache L' = imageCache L
  | Return imgs =>
      imageCache L' = <[id := mkEntry imgs now]> (imageCache L) /\
      requestDelay L' = requestDelay L /\
      maxConcurrent L' = maxConcurrent L /\
      exists status body,
        out = FetchResponse status body /\ response_ok status = true
  end.
Proof.
  unfold internal_try. destruct out as [e|status body].
  - intros [= <- <-]. auto.
  - destruct (response_ok status) eqn:Hok; cbn [negb].
    + unfold js_bind.
      destruct (await_json body L) as [[r|e] L1] eqn:Hj;
        apply await_json_state in Hj as ->.
      * destruct (first_post_images origin querySelectorAll_img r L)
          as [[imgs|e] L2] eqn:Hf;
          apply first_post_images_state in Hf as ->.
        -- cbn. intros [= <- <-]. cbn. eauto 10.
        -- intros [= <- <-]. auto.
      * intros [= <- <-]. auto.
    + destruct (status =? 429)%Z; cbn; intros [= <- <-]; auto.
Qed.

(** The throttle fields change only on a 429. *)
Lemma internal_try_throttle id out now L c L' :
  internal_try origin querySelectorAll_img id out now L = (c, L') ->
  match out with
  | FetchResponse status _ =>
      if (status =? 429)%Z then
        requestDelay L' = Z.min (requestDelay L * 2) 5000 /\
        maxConcurrent L' = 1%Z
      else requestDelay L' = requestDelay L /\ maxConcurrent L' = maxConcurrent L
  | FetchRejects _ =>
      requestDelay L' = requestDelay L /\ maxConcurrent L' = maxConcurrent L
  end.
Proof.
  intros H. destruct out as [e|status body].
  - cbn in H. injection H as _ <-. auto.
  - destruct (status =? 429)%Z eqn:H429.
    + apply Z.eqb_eq in H429 as ->. rewrite internal_try_429 in H.
      injection H as _ <-. auto.
    + destruct c as [imgs|e].
      * apply internal_try_effect in H as (_ & _ & _ & _ & Hd & Hm & _). auto.
      * unfold internal_try in H.
        destruct (response_ok status) eqn:Hok; cbn [negb] in H.
        -- unfold js_bind in H.
           destruct (await_json body L) as [[r|e'] L1] eqn:Hj;
             apply await_json_state in Hj as ->.
           ++ destruct (first_post_images origin querySelectorAll_img r L)
                as [[imgs|e''] L2] eqn:Hf;
                apply first_post_images_state in Hf as ->.
              ** cbn in H. discriminate.
              ** injection H as _ <-. auto.
           ++ injection H as _ <-. auto.
        -- rewrite H429 in H. injection H as _ <-. auto.
Qed.

(** The function itself: the [catch] turns every throw into the empty
    array and keeps the fields as the [try] block left them. *)
Lemma internal_result id out now L :
  _loadTopicImagesInternal origin querySelectorAll_img id out now L =
  match (internal_try origin querySelectorAll_img) id out now L with
  | (Return imgs, L') => (Return imgs, L')
  | (Throw _, L') => (Return [], L')
  end.
Proof.
  unfold _loadTopicImagesInternal, try_catch.
  destruct (internal_try origin querySelectorAll_img id out now L) as [[imgs|e] L']; reflexivity.
Qed.

Lemma internal_returns id out now L :
  exists imgs L', (_loadTopicImagesInternal origin querySelectorAll_img) id out now L = (Return imgs, L').
Proof.
  rewrite internal_result.
  destruct (internal_try origin querySelectorAll_img id out now L) as [[imgs|e] L']; eauto.
Qed.

(** ** The sweep *)

Lemma sweep_fold_stale (now expiry : Z) (l : list (TopicId * CacheEntry))
    (m0 : gmap TopicId CacheEntry) (k : TopicId) (e : CacheEntry) :
  (k, e) ∈ l -> (expiry <= now - timestamp e)%Z ->
  foldr (sweep_entry now expiry) m0 l !! k = None.
Proof.
  intros Hin Hstale. induction l as [|kv l IH]; [by apply elem_of_nil in Hin|].
  cbn [foldr]. unfold sweep_entry at 1.
  apply elem_of_cons in Hin as [<-|Hin].
  - cbn. rewrite Z.geb_leb. destruct (Z.leb_spec expiry (now - timestamp e)); [|lia].
    apply lookup_delete_eq.
  - specialize (IH Hin). destruct (now - timestamp kv.2 >=? expiry)%Z; [|exact IH].
    apply lookup_delete_None. by right.
Qed.

Lemma sweep_fold_fresh (now expiry : Z) (l : list (TopicId * CacheEntry))
    (m0 : gmap TopicId CacheEntry) (k : TopicId) :
  (forall e, (k, e) ∈ l -> (now - timestamp e < expiry)%Z) ->
  foldr (sweep_entry now expiry) m0 l !! k = m0 !! k.
Proof.
  induction l as [|[k' e'] l IH]; intros Hfresh; [reflexivity|].
  cbn [foldr]. unfold sweep_entry at 1. cbn [fst snd].
  assert (IH' : foldr (sweep_entry now expiry) m0 l !! k = m0 !! k).
  { apply IH. intros e He. apply Hfresh. by apply list_elem_of_further. }
  rewrite Z.geb_leb. destruct (Z.leb_spec expiry (now - timestamp e')); [|exact IH'].
  destruct (decide (k' = k)) as [->|Hne].
  - specialize (Hfresh e' (list_elem_of_here _ _)). lia.
  - by rewrite lookup_delete_ne.
Qed.

(** After [_cleanExpiredCache], exactly the entries younger than the
    expiry are left. *)
Lemma clean_lookup (now : Z) (L : Loader) (k : TopicId) :
  imageCache (_cleanExpiredCache now L) !! k =
  match imageCache L !! k with
  | Some e => if (now - timestamp e <? cacheExpiry L)%Z then Some e else None
  | None => None
  end.
Proof.
  unfold _cleanExpiredCache. cbn [imageCache set_imageCache].
  destruct (imageCache L !! k) as [e|] eqn:Hk.
  - destruct (Z.ltb_spec (now - timestamp e) (cacheExpiry L)).
    + rewrite sweep_fold_fresh; [exact Hk|].
      intros e' He'. apply elem_of_map_to_list in He'. congruence.
    + apply (sweep_fold_stale _ _ _ _ _ e); [|lia].
      by apply elem_of_map_to_list.
  - rewrite sweep_fold_fresh; [exact Hk|].
    intros e' He'. apply elem_of_map_to_list in He'. congruence.
Qed.

(** ** The dispatch step *)

Lemma processQueue_cases w :
  (_processQueue w = w /\
   (requestQueue (loader w) = [] \/
    (maxConcurrent (loader w) <= activeRequests (loader w))%Z))
  \/
  (exists r rest,
     requestQueue (loader w) = r :: rest /\
     (activeRequests (loader w) < maxConcurrent (loader w))%Z /\
     _processQueue w =
       mkWorld
         (set_activeRequests (activeRequests (loader w) + 1)
            (set_requestQueue rest (loader w)))
         (<[promise r := mkTask (topicId r) (Delaying (requestDelay (loader w)))]>
            (tasks w))
         (settled w) (next_promise w) (enqueued w)
         (dispatched w ++ [r]) (fetched w)).
Proof.
  unfold _processQueue. cbv zeta.
  destruct (requestQueue (loader w)) as [|r rest] eqn:Hq.
  - left. cbn. auto.
  - cbn [length]. replace (Z.of_nat (S (length rest)) =? 0)%Z with false
      by (symmetry; apply Z.eqb_neq; lia).
    cbn [orb]. rewrite Z.geb_leb.
    destruct (Z.leb_spec (maxConcurrent (loader w)) (activeRequests (loader w))).
    + left. auto.
    + right. exists r, rest. auto.
Qed.

(** ** The steps, case by case *)

Lemma step_inv w ev w' :
  step origin querySelectorAll_img w ev = Some w' ->
  match ev with
  | Call id now1 now2 =>
      w' = loadTopicImages id now1 now2 w
  | TimerFires p =>
      exists id d,
        tasks w !! p = Some (mkTask id (Delaying d)) /\
        w' = mkWorld (loader w) (<[p := mkTask id Fetching]> (tasks w))
               (settled w) (next_promise w) (enqueued w)
               (dispatched w) (fetched w ++ [id])
  | FetchCompletes p out now =>
      exists id c L',
        tasks w !! p = Some (mkTask id Fetching) /\
        _loadTopicImagesInternal origin querySelectorAll_img id out now (loader w) = (c, L') /\
        w' = mkWorld L' (<[p := mkTask id (Completed c)]> (tasks w))
               (settled w) (next_promise w) (enqueued w)
               (dispatched w) (fetched w)
  | Resumes p =>
      exists id c,
        tasks w !! p = Some (mkTask id (Completed c)) /\
        w' = finally_block p
               (settle p c w)
  end.
Proof.
  destruct ev as [id now1 now2|p|p out now|p]; cbn.
  - by intros [= <-].
  - destruct (tasks w !! p) as [[id [d| |c]]|]; try discriminate.
    intros [= <-]. eauto.
  - destruct (tasks w !! p) as [[id [d| |c]]|]; try discriminate.
    destruct (_loadTopicImagesInternal origin querySelectorAll_img id out now (loader w)) as [c L'] eqn:Hi.
    intros [= <-]. eauto 10.
  - destruct (tasks w !! p) as [[id [d| |c]]|]; try discriminate.
    intros [= <-]. eauto.
Qed.

(** The two ways [loadTopicImages] goes: a hit on an entry that is valid
    at both clock readings, or a push on the queue followed by the
    dispatch step, with no entry left for [id]. *)
Lemma loadTopicImages_cases id now1 now2 w :
  let L := loader w in
  let p := next_promise w in
  (exists e,
     imageCache L !! id = Some e /\
     (now1 - timestamp e < cacheExpiry L)%Z /\
     (now2 - timestamp e < cacheExpiry L)%Z /\
     loadTopicImages id now1 now2 w =
       mkWorld (_cleanExpiredCache now1 L) (tasks w)
         (settled w ++ [(p, Resolved (images e))]) (S p)
         (enqueued w) (dispatched w) (fetched w))
  \/
  (exists cache',
     (forall e, imageCache L !! id = Some e ->
        (cacheExpiry L <= now1 - timestamp e)%Z \/
        (cacheExpiry L <= now2 - timestamp e)%Z) /\
     cache' !! id = None /\
     (forall k, k <> id ->
        cache' !! k = imageCache (_cleanExpiredCache now1 L) !! k) /\
     loadTopicImages id now1 now2 w =
       _processQueue
         (mkWorld
            (mkLoader (requestQueue L ++ [mkRequest id p]) (activeRequests L)
               (maxConcurrent L) (requestDelay L) cache' (cacheExpiry L))
            (tasks w) (settled w) (S p)
            (enqueued w ++ [mkRequest id p]) (dispatched w) (fetched w))).
Proof.
  cbv zeta. unfold loadTopicImages. cbv zeta.
  pose proof (clean_lookup now1 (loader w) id) as Hclean.
  destruct (imageCache (_cleanExpiredCache now1 (loader w)) !! id) as [e|] eqn:Hid.
  - destruct (imageCache (loader w) !! id) as [e0|] eqn:H0; [|discriminate].
    destruct (Z.ltb_spec (now1 - timestamp e0) (cacheExpiry (loader w)));
      [|discriminate].
    injection Hclean as ->. cbn [_isCacheValid].
    change (cacheExpiry (_cleanExpiredCache now1 (loader w)))
      with (cacheExpiry (loader w)).
    destruct (Z.ltb_spec (now2 - timestamp e0) (cacheExpiry (loader w))).
    + left. exists e0. auto.
    + right.
      exists (delete id (imageCache (_cleanExpiredCache now1 (loader w)))).
      split; [intros e' [= <-]; auto|].
      split; [apply lookup_delete_eq|].
      split; [intros k Hk; by apply lookup_delete_ne|].
      reflexivity.
  - right. exists (imageCache (_cleanExpiredCache now1 (loader w))).
    split.
    { intros e' He'. rewrite He' in Hclean.
      destruct (Z.ltb_spec (now1 - timestamp e') (cacheExpiry (loader w)));
        [discriminate | auto]. }
    split; [exact Hid|]. split; [reflexivity|]. reflexivity.
Qed.

(** The fields after [_loadTopicImagesInternal] are those after its
    [try] block. *)
Lemma internal_body_of id out now L c L' :
  _loadTopicImagesInternal origin querySelectorAll_img id out now L = (c, L') ->
  exists c0, (internal_try origin querySelectorAll_img) id out now L = (c0, L') /\
             c = match c0 with Return imgs => Return imgs | Throw _ => Return [] end.
Proof.
  rewrite internal_result.
  destruct (internal_try origin querySelectorAll_img id out now L) as [[imgs|e] L0];
    intros [= <- <-]; eauto.
Qed.

(** ** Invariants of the loop *)

Lemma processQueue_bounded w : bounded w -> bounded (_processQueue w).
Proof.
  intros (Hm & Ha & Hle).
  destruct (processQueue_cases w) as [[-> _]|(r & rest & Hq & Hlt & ->)];
    [done|].
  assert (Hempty : tasks w = ∅) by (apply map_size_empty_inv; lia).
  unfold bounded. cbn.
  rewrite Hempty, map_size_insert_None, map_size_empty by apply lookup_empty.
  rewrite Hempty, map_size_empty in Ha. lia.
Qed.

Lemma step_bounded w ev w' : bounded w -> step origin querySelectorAll_img w ev = Some w' -> bounded w'.
Proof.
  intros Hb Hstep. pose proof Hb as (Hm & Ha & Hle).
  apply step_inv in Hstep. destruct ev as [id now1 now2|p|p out now|p].
  - subst w'.
    destruct (loadTopicImages_cases id now1 now2 w)
      as [(e & _ & _ & _ & ->)|(cache' & _ & _ & _ & ->)].
    + exact Hb.
    + apply processQueue_bounded. exact Hb.
  - destruct Hstep as (id & d & Ht & ->). unfold bounded. cbn.
    rewrite map_size_insert_Some by eauto. exact Hb.
  - destruct Hstep as (id & c & L' & Ht & Hi & ->).
    apply internal_body_of in Hi as (c0 & Hi & _).
    pose proof (internal_try_effect _ _ _ _ _ _ Hi) as (_ & Hact & _ & _).
    pose proof (internal_try_throttle _ _ _ _ _ _ Hi) as Hthr.
    assert (Hm' : maxConcurrent L' = 1%Z).
    { destruct out as [e|status body]; [lia|].
      destruct (status =? 429)%Z; lia. }
    unfold bounded. cbn. rewrite map_size_insert_Some by eauto. lia.
  - destruct Hstep as (id & c & Ht & ->). unfold finally_block, settle. cbn.
    apply processQueue_bounded. unfold bounded. cbn.
    rewrite map_size_delete_Some by eauto.
    assert (size (tasks w) <> 0%nat) by (apply (map_size_ne_0_lookup_2 _ p); eauto).
    lia.
Qed.

Lemma new_World_bounded : bounded new_World.
Proof. unfold bounded. cbn. rewrite map_size_empty. lia. Qed.

Lemma reachable_bounded w : reachable origin querySelectorAll_img w -> bounded w.
Proof.
  induction 1 as [|w ev w' _ IH Hstep];
    [apply new_World_bounded | by eapply step_bounded].
Qed.

Lemma processQueue_fifo w : fifo w -> fifo (_processQueue w).
Proof.
  unfold fifo. intros H.
  destruct (processQueue_cases w) as [[-> _]|(r & rest & Hq & Hlt & ->)];
    [done|].
  cbn. rewrite H, Hq, <- app_assoc. reflexivity.
Qed.

Lemma step_fifo w ev w' : fifo w -> step origin querySelectorAll_img w ev = Some w' -> fifo w'.
Proof.
  intros Hf Hstep. apply step_inv in Hstep.
  destruct ev as [id now1 now2|p|p out now|p].
  - subst w'.
    destruct (loadTopicImages_cases id now1 now2 w)
      as [(e & _ & _ & _ & ->)|(cache' & _ & _ & _ & ->)].
    + exact Hf.
    + apply processQueue_fifo. unfold fifo in *. cbn.
      rewrite Hf, app_assoc. reflexivity.
  - destruct Hstep as (id & d & Ht & ->). exact Hf.
  - destruct Hstep as (id & c & L' & Ht & Hi & ->).
    apply internal_body_of in Hi as (c0 & Hi & _).
    apply internal_try_effect in Hi as (Hq & _).
    unfold fifo in *. cbn. rewrite Hq. exact Hf.
  - destruct Hstep as (id & c & Ht & ->).
    apply processQueue_fifo. exact Hf.
Qed.

Lemma reachable_fifo w : reachable origin querySelectorAll_img w -> fifo w.
Proof.
  induction 1 as [|w ev w' _ IH Hstep]; [reflexivity | by eapply step_fifo].
Qed.

Lemma processQueue_only_resolves w :
  only_resolves w -> only_resolves (_processQueue w).
Proof.
  intros [Hs Ht].
  destruct (processQueue_cases w) as [[-> _]|(r & rest & Hq & Hlt & ->)];
    [done|].
  split; cbn; [exact Hs|].
  intros p id c Hp. apply lookup_insert_Some in Hp as [[_ [=]]|[_ Hp]].
  by eapply Ht.
Qed.

Lemma step_only_resolves w ev w' :
  only_resolves w -> step origin querySelectorAll_img w ev = Some w' -> only_resolves w'.
Proof.
  intros Hr Hstep. pose proof Hr as [Hs Ht]. apply step_inv in Hstep.
  destruct ev as [id now1 now2|p|p out now|p].
  - subst w'.
    destruct (loadTopicImages_cases id now1 now2 w)
      as [(e & _ & _ & _ & ->)|(cache' & _ & _ & _ & ->)].
    + split; cbn; [|exact Ht].
      intros p s Hin. apply elem_of_app in Hin as [Hin|Hin]; [by eapply Hs|].
      apply list_elem_of_singleton in Hin as [= _ ->]. eauto.
    + apply processQueue_only_resolves. split; cbn; assumption.
  - destruct Hstep as (id & d & Hp & ->). split; cbn; [exact Hs|].
    intros q id' c Hq. apply lookup_insert_Some in Hq as [[_ [=]]|[_ Hq]].
    by eapply Ht.
  - destruct Hstep as (id & c & L' & Hp & Hi & ->). split; cbn; [exact Hs|].
    intros q id' c' Hq. apply lookup_insert_Some in Hq as [[_ [= _ <-]]|[_ Hq]].
    + destruct (internal_returns id out now (loader w)) as (v & L0 & Hv).
      rewrite Hv in Hi. injection Hi as <- _. eauto.
    + by eapply Ht.
  - destruct Hstep as (id & c & Hp & ->).
    apply processQueue_only_resolves. split; cbn.
    + intros q s Hin. apply elem_of_app in Hin as [Hin|Hin]; [by eapply Hs|].
      apply list_elem_of_singleton in Hin as [= _ ->].
      destruct (Ht _ _ _ Hp) as [v ->]. eauto.
    + intros q id' c' Hq. apply lookup_delete_Some in Hq as [_ Hq].
      by eapply Ht.
Qed.

Lemma new_World_only_resolves : only_resolves new_World.
Proof.
  split; cbn.
  - intros p s Hin. by apply elem_of_nil in Hin.
  - intros p id c Hp. by rewrite lookup_empty in Hp.
Qed.

Lemma reachable_only_resolves w : reachable origin querySelectorAll_img w -> only_resolves w.
Proof.
  induction 1 as [|w ev w' _ IH Hstep];
    [apply new_World_only_resolves | by eapply step_only_resolves].
Qed.

(** ** What the dispatch step leaves alone *)

Lemma processQueue_frame w :
  settled (_processQueue w) = settled w /\
  fetched (_processQueue w) = fetched w /\
  enqueued (_processQueue w) = enqueued w /\
  next_promise (_processQueue w) = next_promise w /\
  imageCache (loader (_processQueue w)) = imageCache (loader w) /\
  requestDelay (loader (_processQueue w)) = requestDelay (loader w) /\
  maxConcurrent (loader (_processQueue w)) = maxConcurrent (loader w) /\
  cacheExpiry (loader (_processQueue w)) = cacheExpiry (loader w).
Proof.
  destruct (processQueue_cases w) as [[-> _]|(r & rest & Hq & Hlt & ->)];
    cbn; auto 10.
Qed.

(** The arrival of the fetch outcome followed by the resumption of
    [_processQueue]: the promise ends the way [_loadTopicImagesInternal]
    ended, and the cache is as that function left it. *)
Lemma fetch_then_resume w p id out now c L' :
  tasks w !! p = Some (mkTask id Fetching) ->
  _loadTopicImagesInternal origin querySelectorAll_img id out now (loader w) = (c, L') ->
  exists w1 w2,
    step origin querySelectorAll_img w (FetchCompletes p out now) = Some w1 /\
    loader w1 = L' /\
    tasks w1 !! p = Some (mkTask id (Completed c)) /\
    settled w1 = settled w /\
    step origin querySelectorAll_img w1 (Resumes p) = Some w2 /\
    settled w2 = (settled w ++
      [(p, match c with Return v => Resolved v | Throw e => Rejected e end)])%list /\
    imageCache (loader w2) = imageCache L'.
Proof.
  intros Ht Hi.
  set (w1 := mkWorld L' (<[p := mkTask id (Completed c)]> (tasks w))
               (settled w) (next_promise w) (enqueued w)
               (dispatched w) (fetched w)).
  exists w1, (finally_block p (settle p c w1)).
  assert (Ht1 : tasks w1 !! p = Some (mkTask id (Completed c)))
    by apply lookup_insert_eq.
  split; [cbn; by rewrite Ht, Hi|]. split; [reflexivity|].
  split; [exact Ht1|]. split; [reflexivity|].
  split; [cbn [step]; by rewrite Ht1|].
  unfold finally_block.
  match goal with |- context [_processQueue ?x] =>
    pose proof (processQueue_frame x) as (Hs & _ & _ & _ & Hc & _) end.
  rewrite Hs, Hc. auto.
Qed.

(** C1 (amended). When the fetch of a request ends in a 429 or in another
    status outside 200-299, the [try] block of [_loadTopicImagesInternal]
    throws the rate-limit error, respectively the error carrying the
    status, but its [catch] block absorbs it: the function returns the
    empty array and the promise of the caller is resolved with the empty
    sequence. *)
Theorem http_error_is_absorbed w p id status body now :
  tasks w !! p = Some (mkTask id Fetching) ->
  response_ok status = false ->
  exists L' w1 w2,
    internal_try origin querySelectorAll_img id (FetchResponse status body) now (loader w)
      = (Throw (Error (if (status =? 429)%Z then "Rate limit exceeded"
                       else "HTTP error! status: " +:+ pretty status)), L') /\
    _loadTopicImagesInternal origin querySelectorAll_img id (FetchResponse status body) now (loader w) = (Return [], L') /\
    step origin querySelectorAll_img w (FetchCompletes p (FetchResponse status body) now) = Some w1 /\
    tasks w1 !! p = Some (mkTask id (Completed (Return []))) /\
    step origin querySelectorAll_img w1 (Resumes p) = Some w2 /\
    settled w2 = (settled w ++ [(p, Resolved [])])%list.
Proof.
  intros Ht Hok.
  assert (Hbody : exists L',
    internal_try origin querySelectorAll_img id (FetchResponse status body) now (loader w)
      = (Throw (Error (if (status =? 429)%Z then "Rate limit exceeded"
                       else "HTTP error! status: " +:+ pretty status)), L')).
  { destruct (Z.eqb_spec status 429) as [->|Hne].
    - rewrite internal_try_429. eauto.
    - rewrite internal_try_http_error by assumption. eauto. }
  destruct Hbody as [L' Hbody].
  assert (Hi : _loadTopicImagesInternal origin querySelectorAll_img id (FetchResponse status body) now (loader w)
               = (Return [], L')) by (by rewrite internal_result, Hbody).
  destruct (fetch_then_resume _ _ _ _ _ _ _ Ht Hi)
    as (w1 & w2 & H1 & _ & Ht1 & _ & H2 & Hs & _).
  exists L', w1, w2. auto 10.
Qed.

(** C4. A 429 response sets [requestDelay] to [min(2 * requestDelay, 5000)]
    and [maxConcurrent] to 1 when it arrives, before the promise of the
    request is settled; no other event writes the two fields, so the
    values stay for the requests that follow, whose timers are started
    with the new delay; the delay never goes down and the limit never
    goes up. *)
Theorem backoff_on_429_persists :
  (forall w p id body now,
     tasks w !! p = Some (mkTask id Fetching) ->
     exists w1,
       step origin querySelectorAll_img w (FetchCompletes p (FetchResponse 429 body) now) = Some w1 /\
       requestDelay (loader w1) = Z.min (2 * requestDelay (loader w)) 5000 /\
       maxConcurrent (loader w1) = 1%Z /\
       settled w1 = settled w /\
       tasks w1 !! p = Some (mkTask id (Completed (Return [])))) /\
  (forall w ev w',
     step origin querySelectorAll_img w ev = Some w' -> is_rate_limit_event ev = false ->
     requestDelay (loader w') = requestDelay (loader w) /\
     maxConcurrent (loader w') = maxConcurrent (loader w)) /\
  (forall w ev w',
     step origin querySelectorAll_img w ev = Some w' ->
     (0 <= requestDelay (loader w) <= 5000)%Z ->
     (1 <= maxConcurrent (loader w))%Z ->
     (requestDelay (loader w) <= requestDelay (loader w') <= 5000)%Z /\
     (1 <= maxConcurrent (loader w') <= maxConcurrent (loader w))%Z) /\
  (forall w r rest,
     requestQueue (loader w) = r :: rest ->
     (activeRequests (loader w) < maxConcurrent (loader w))%Z ->
     tasks (_processQueue w) !! promise r
     = Some (mkTask (topicId r) (Delaying (requestDelay (loader w))))).
Proof.
  assert (Hstep : forall w ev w',
    step origin querySelectorAll_img w ev = Some w' ->
    if is_rate_limit_event ev then
      requestDelay (loader w') = Z.min (requestDelay (loader w) * 2) 5000 /\
      maxConcurrent (loader w') = 1%Z
    else
      requestDelay (loader w') = requestDelay (loader w) /\
      maxConcurrent (loader w') = maxConcurrent (loader w)).
  { intros w ev w' Hs. apply step_inv in Hs.
    destruct ev as [id now1 now2|p|p out now|p]; cbn [is_rate_limit_event].
    - subst w'.
      destruct (loadTopicImages_cases id now1 now2 w)
        as [(e & _ & _ & _ & ->)|(cache' & _ & _ & _ & ->)]; [by cbn|].
      match goal with |- context [_processQueue ?x] =>
        pose proof (processQueue_frame x) as (_ & _ & _ & _ & _ & Hd & Hm & _) end.
      cbn in Hd, Hm. auto.
    - destruct Hs as (id & d & _ & ->). by cbn.
    - destruct Hs as (id & c & L' & _ & Hi & ->). cbn.
      apply internal_body_of in Hi as (c0 & Hi & _).
      apply internal_try_throttle in Hi. destruct out as [e|status body]; auto.
    - destruct Hs as (id & c & _ & ->). unfold finally_block.
      match goal with |- context [_processQueue ?x] =>
        pose proof (processQueue_frame x) as (_ & _ & _ & _ & _ & Hd & Hm & _) end.
      cbn in Hd, Hm. auto. }
  split; [|split; [|split]].
  - intros w p id body now Ht.
    destruct (_loadTopicImagesInternal origin querySelectorAll_img id (FetchResponse 429 body) now (loader w))
      as [c L'] eqn:Hi.
    pose proof Hi as Hi'. rewrite internal_result, internal_try_429 in Hi'.
    injection Hi' as <- <-.
    destruct (fetch_then_resume _ _ _ _ _ _ _ Ht Hi)
      as (w1 & w2 & H1 & HL & Ht1 & Hs1 & _).
    exists w1. rewrite HL. cbn. rewrite (Z.mul_comm 2). auto.
  - intros w ev w' Hs Hev. apply Hstep in Hs. by rewrite Hev in Hs.
  - intros w ev w' Hs Hd Hm. apply Hstep in Hs.
    destruct (is_rate_limit_event ev); lia.
  - intros w r rest Hq Hlt.
    destruct (processQueue_cases w) as [[_ [H|H]]|(r' & rest' & Hq' & _ & ->)].
    + congruence.
    + lia.
    + rewrite Hq in Hq'. injection Hq' as <- <-. cbn. apply lookup_insert_eq.
Qed.

(** A fetch whose [try] block returns stores what it returns, stamped
    with the clock reading of that moment. *)
Lemma success_stores_entry w p id out now imgs L' :
  tasks w !! p = Some (mkTask id Fetching) ->
  internal_try origin querySelectorAll_img id out now (loader w) = (Return imgs, L') ->
  exists w1 w2,
    step origin querySelectorAll_img w (FetchCompletes p out now) = Some w1 /\
    imageCache (loader w1) !! id = Some (mkEntry imgs now) /\
    step origin querySelectorAll_img w1 (Resumes p) = Some w2 /\
    settled w2 = (settled w ++ [(p, Resolved imgs)])%list /\
    imageCache (loader w2) !! id = Some (mkEntry imgs now).
Proof.
  intros Ht Hb.
  assert (Hi : _loadTopicImagesInternal origin querySelectorAll_img id out now (loader w) = (Return imgs, L'))
    by (by rewrite internal_result, Hb).
  destruct (fetch_then_resume _ _ _ _ _ _ _ Ht Hi)
    as (w1 & w2 & H1 & HL & _ & _ & H2 & Hs & Hc).
  apply internal_try_effect in Hb as (_ & _ & _ & Hcache & _).
  exists w1, w2. rewrite Hc, HL, Hcache, lookup_insert_eq. auto.
Qed.

(** C5. A successful fetch for [id] stores the value with which the first
    promise is resolved; a later [loadTopicImages(id)] that finds this
    entry younger than the expiry resolves its promise with the same
    value and neither queues a request nor sends a fetch. *)
Theorem cache_hit_returns_stored_value :
  (forall w p id out now imgs L',
     tasks w !! p = Some (mkTask id Fetching) ->
     internal_try origin querySelectorAll_img id out now (loader w) = (Return imgs, L') ->
     exists w1 w2,
       step origin querySelectorAll_img w (FetchCompletes p out now) = Some w1 /\
       step origin querySelectorAll_img w1 (Resumes p) = Some w2 /\
       settled w2 = (settled w ++ [(p, Resolved imgs)])%list /\
       imageCache (loader w2) !! id = Some (mkEntry imgs now)) /\
  (forall w id e now1 now2,
     imageCache (loader w) !! id = Some e ->
     (now1 - timestamp e < cacheExpiry (loader w))%Z ->
     (now2 - timestamp e < cacheExpiry (loader w))%Z ->
     let w' := loadTopicImages id now1 now2 w in
     settled w' = (settled w ++ [(next_promise w, Resolved (images e))])%list /\
     fetched w' = fetched w /\
     enqueued w' = enqueued w /\
     dispatched w' = dispatched w /\
     requestQueue (loader w') = requestQueue (loader w) /\
     tasks w' = tasks w /\
     imageCache (loader w') !! id = Some e).
Proof.
  split.
  - intros w p id out now imgs L' Ht Hb.
    destruct (success_stores_entry _ _ _ _ _ _ _ Ht Hb)
      as (w1 & w2 & H1 & _ & H2 & Hs & Hc).
    eauto 10.
  - intros w id e now1 now2 He H1 H2. cbv zeta.
    destruct (loadTopicImages_cases id now1 now2 w)
      as [(e' & He' & _ & _ & ->)|(cache' & Hstale & _)].
    + rewrite He in He'. injection He' as <-.
      assert (Hclean :
        imageCache (_cleanExpiredCache now1 (loader w)) !! id = Some e).
      { rewrite clean_lookup, He.
        destruct (Z.ltb_spec (now1 - timestamp e) (cacheExpiry (loader w)));
          [reflexivity | lia]. }
      repeat split; try reflexivity. exact Hclean.
    + destruct (Hstale e He); lia.
Qed.

(** The sweep at the start of a call, the freshness of what a call returns
    from the cache, the fate of an expired entry on an idle service, and
    what a returning [try] block stores. *)
Lemma expired_entries_on_call :
  (forall w id now1 now2 k e,
     imageCache (loader w) !! k = Some e ->
     (cacheExpiry (loader w) <= now1 - timestamp e)%Z ->
     imageCache (loader (loadTopicImages id now1 now2 w)) !! k = None) /\
  (forall w id now1 now2,
     settled (loadTopicImages id now1 now2 w) <> settled w ->
     exists e,
       imageCache (loader w) !! id = Some e /\
       (now1 - timestamp e < cacheExpiry (loader w))%Z /\
       (now2 - timestamp e < cacheExpiry (loader w))%Z /\
       settled (loadTopicImages id now1 now2 w)
       = (settled w ++ [(next_promise w, Resolved (images e))])%list) /\
  (forall w id e now1 now2,
     imageCache (loader w) !! id = Some e ->
     (cacheExpiry (loader w) <= now1 - timestamp e)%Z \/
     (cacheExpiry (loader w) <= now2 - timestamp e)%Z ->
     let w' := loadTopicImages id now1 now2 w in
     settled w' = settled w /\
     enqueued w' = (enqueued w ++ [mkRequest id (next_promise w)])%list /\
     imageCache (loader w') !! id = None /\
     (requestQueue (loader w) = [] ->
      (activeRequests (loader w) < maxConcurrent (loader w))%Z ->
      exists w2,
        step origin querySelectorAll_img w' (TimerFires (next_promise w)) = Some w2 /\
        fetched w2 = (fetched w ++ [id])%list)) /\
  (forall w p id out now imgs L',
     tasks w !! p = Some (mkTask id Fetching) ->
     internal_try origin querySelectorAll_img id out now (loader w) = (Return imgs, L') ->
     exists w1,
       step origin querySelectorAll_img w (FetchCompletes p out now) = Some w1 /\
       imageCache (loader w1) !! id = Some (mkEntry imgs now)).
Proof.
  split; [|split; [|split]].
  - intros w id now1 now2 k e Hk Hstale.
    assert (Hclean : imageCache (_cleanExpiredCache now1 (loader w)) !! k = None).
    { rewrite clean_lookup, Hk.
      destruct (Z.ltb_spec (now1 - timestamp e) (cacheExpiry (loader w)));
        [lia | reflexivity]. }
    destruct (loadTopicImages_cases id now1 now2 w)
      as [(e' & _ & _ & _ & ->)|(cache' & _ & Hid & Hother & ->)].
    + exact Hclean.
    + match goal with |- context [_processQueue ?x] =>
        pose proof (processQueue_frame x) as (_ & _ & _ & _ & Hc & _) end.
      rewrite Hc. cbn.
      destruct (decide (k = id)) as [->|Hne]; [exact Hid|].
      by rewrite Hother.
  - intros w id now1 now2 Hne.
    destruct (loadTopicImages_cases id now1 now2 w)
      as [(e & He & H1 & H2 & Heq)|(cache' & _ & _ & _ & Heq)].
    + exists e. rewrite Heq. auto.
    + exfalso. apply Hne. rewrite Heq.
      match goal with |- context [_processQueue ?x] =>
        pose proof (processQueue_frame x) as (Hs & _) end.
      exact Hs.
  - intros w id e now1 now2 He Hstale. cbv zeta.
    destruct (loadTopicImages_cases id now1 now2 w)
      as [(e' & He' & H1 & H2 & _)|(cache' & _ & Hid & _ & ->)].
    + rewrite He in He'. injection He' as <-. lia.
    + match goal with |- context [_processQueue ?x] =>
        pose proof (processQueue_frame x) as (Hs & Hf & Hen & _ & Hc & _);
        pose proof (processQueue_cases x) as Hcases end.
      rewrite Hs, Hen, Hc. cbn.
      split; [reflexivity|]. split; [reflexivity|]. split; [exact Hid|].
      intros Hq Hlt.
      destruct Hcases as [[_ [H|H]]|(r & rest & Hq' & _ & Hpq)]; cbn in *.
      * rewrite Hq in H. discriminate.
      * lia.
      * rewrite Hq in Hq'. injection Hq' as <- <-. rewrite Hpq. cbn.
        rewrite lookup_insert_eq. eauto.
  - intros w p id out now imgs L' Ht Hb.
    destruct (success_stores_entry _ _ _ _ _ _ _ Ht Hb)
      as (w1 & w2 & H1 & Hc & _).
    eauto.
Qed.

(** C7. In every state the service can reach, [activeRequests] is at most
    [maxConcurrent]; it counts the suspended activations of
    [_processQueue], so the number of fetches that are out at the same
    time is at most [maxConcurrent] too. *)
Theorem active_requests_within_limit w :
  reachable origin querySelectorAll_img w ->
  (activeRequests (loader w) <= maxConcurrent (loader w))%Z /\
  activeRequests (loader w) = Z.of_nat (size (tasks w)) /\
  (Z.of_nat (in_flight w) <= maxConcurrent (loader w))%Z.
Proof.
  intros Hr. destruct (reachable_bounded w Hr) as (Hm & Ha & Hle).
  split; [exact Hle|]. split; [exact Ha|].
  assert (in_flight w <= size (tasks w))%nat
    by (apply map_subseteq_size, map_filter_subseteq).
  lia.
Qed.


(** C9. The promise that [loadTopicImages] returns is never rejected: in
    every state the service can reach all settled promises are resolved,
    and whatever the outcome of a fetch, [_loadTopicImagesInternal]
    returns, so that the promise of the request is resolved; when the
    [try] block threw (a 429, another status outside 200-299, a network
    failure, an exception while reading the response), it is resolved
    with the empty sequence. *)
Theorem loadTopicImages_always_resolves w :
  reachable origin querySelectorAll_img w ->
  (forall p s, (p, s) ∈ settled w -> exists v, s = Resolved v) /\
  (forall p id out now,
     tasks w !! p = Some (mkTask id Fetching) ->
     exists v L' w1 w2,
       _loadTopicImagesInternal origin querySelectorAll_img id out now (loader w) = (Return v, L') /\
       step origin querySelectorAll_img w (FetchCompletes p out now) = Some w1 /\
       step origin querySelectorAll_img w1 (Resumes p) = Some w2 /\
       settled w2 = (settled w ++ [(p, Resolved v)])%list /\
       (forall e L0, (internal_try origin querySelectorAll_img) id out now (loader w) = (Throw e, L0) ->
                     v = [])).
Proof.
  intros Hr. destruct (reachable_only_resolves w Hr) as [Hs _].
  split; [exact Hs|].
  intros p id out now Ht.
  destruct (internal_returns id out now (loader w)) as (v & L' & Hi).
  destruct (fetch_then_resume _ _ _ _ _ _ _ Ht Hi)
    as (w1 & w2 & H1 & _ & _ & _ & H2 & Hset & _).
  exists v, L', w1, w2. repeat split; try assumption.
  intros e L0 Hb. rewrite internal_result, Hb in Hi. by injection Hi as <- _.
Qed.


Lemma run_reachable evs : forall w w',
  reachable origin querySelectorAll_img w -> run origin querySelectorAll_img w evs = Some w' -> reachable origin querySelectorAll_img w'.
Proof.
  induction evs as [|ev evs IH]; intros w w' Hr Hrun; cbn in Hrun.
  - by injection Hrun as <-.
  - destruct (step origin querySelectorAll_img w ev) as [w1|] eqn:Hs; [|discriminate].
    eapply IH; [|exact Hrun]. by eapply reachable_step.
Qed.

End LoaderProperties.

(** * Runs on concrete states *)

Lemma fetching_world_reachable :
  reachable forum_origin marked_cover_parser fetching_world.
Proof.
  apply (run_reachable forum_origin marked_cover_parser
           [Call (inl 7%Z) 0 0; TimerFires 0] new_World);
    [apply reachable_new | vm_compute; reflexivity].
Qed.

Lemma cached_world_reachable :
  reachable forum_origin marked_cover_parser cached_world.
Proof.
  apply (run_reachable forum_origin marked_cover_parser
           [FetchCompletes 0 (FetchResponse 200 marked_cover_body) 1000; Resumes 0]
           fetching_world);
    [apply fetching_world_reachable | vm_compute; reflexivity].
Qed.

(** On a 429, and on a 500, the promise of the caller is resolved with the
    empty sequence: it is not rejected. *)
Lemma http_error_promise_is_resolved :
  settled <$> run forum_origin marked_cover_parser new_World
    [Call (inl 7%Z) 0 0; TimerFires 0;
     FetchCompletes 0 (FetchResponse 429 BodyInvalid) 1000; Resumes 0]
  = Some [(0%nat, Resolved [])] /\
  settled <$> run forum_origin marked_cover_parser new_World
    [Call (inl 7%Z) 0 0; TimerFires 0;
     FetchCompletes 0 (FetchResponse 500 BodyInvalid) 1000; Resumes 0]
  = Some [(0%nat, Resolved [])] /\
  settled <$> run forum_origin marked_cover_parser new_World
    [Call (inl 7%Z) 0 0; TimerFires 0;
     FetchCompletes 0 (FetchResponse 429 BodyInvalid) 1000; Resumes 0]
  <> Some [(0%nat, Rejected (Error "Rate limit exceeded"))] /\
  settled <$> run forum_origin marked_cover_parser new_World
    [Call (inl 7%Z) 0 0; TimerFires 0;
     FetchCompletes 0 (FetchResponse 500 BodyInvalid) 1000; Resumes 0]
  <> Some [(0%nat, Rejected (Error "HTTP error! status: 500"))].
Proof.
  split; [vm_compute; reflexivity|]. split; [vm_compute; reflexivity|].
  split; vm_compute; discriminate.
Qed.

Lemma http_error_is_absorbed_witness :
  exists L' w1 w2,
    internal_try forum_origin marked_cover_parser (inl 7%Z)
      (FetchResponse 503 BodyInvalid) 1000 (loader fetching_world)
      = (Throw (Error "HTTP error! status: 503"), L') /\
    _loadTopicImagesInternal forum_origin marked_cover_parser (inl 7%Z)
      (FetchResponse 503 BodyInvalid) 1000 (loader fetching_world)
      = (Return [], L') /\
    step forum_origin marked_cover_parser fetching_world
      (FetchCompletes 0 (FetchResponse 503 BodyInvalid) 1000) = Some w1 /\
    tasks w1 !! 0%nat = Some (mkTask (inl 7%Z) (Completed (Return []))) /\
    step forum_origin marked_cover_parser w1 (Resumes 0) = Some w2 /\
    settled w2 = [(0%nat, Resolved [])].
Proof.
  apply (http_error_is_absorbed forum_origin marked_cover_parser
           fetching_world 0%nat (inl 7%Z) 503 BodyInvalid 1000);
    reflexivity.
Defined.

Lemma backoff_on_429_persists_witness :
  exists w1,
    step forum_origin marked_cover_parser fetching_world
      (FetchCompletes 0 (FetchResponse 429 BodyInvalid) 1000) = Some w1 /\
    requestDelay (loader w1) = 600%Z /\
    maxConcurrent (loader w1) = 1%Z /\
    settled w1 = [] /\
    tasks w1 !! 0%nat = Some (mkTask (inl 7%Z) (Completed (Return []))).
Proof.
  apply (proj1 (backoff_on_429_persists forum_origin marked_cover_parser)
           fetching_world 0%nat (inl 7%Z) BodyInvalid 1000).
  reflexivity.
Defined.

Lemma cache_hit_returns_stored_value_witness :
  let w' := loadTopicImages (inl 7%Z) 2000 2001 cached_world in
  settled w' = [(0%nat, Resolved ["https://forum.example/a.png"]);
                (1%nat, Resolved ["https://forum.example/a.png"])] /\
  fetched w' = [inl 7%Z] /\
  enqueued w' = enqueued cached_world /\
  dispatched w' = dispatched cached_world /\
  requestQueue (loader w') = [] /\
  tasks w' = ∅ /\
  imageCache (loader w') !! (inl 7%Z : TopicId)
  = Some (mkEntry ["https://forum.example/a.png"] 1000).
Proof.
  apply (proj2 (cache_hit_returns_stored_value forum_origin marked_cover_parser)
           cached_world (inl 7%Z)
           (mkEntry ["https://forum.example/a.png"] 1000) 2000 2001).
  - reflexivity.
  - cbn. lia.
  - cbn. lia.
Defined.

Lemma active_requests_within_limit_witness :
  (activeRequests (loader fetching_world) <= maxConcurrent (loader fetching_world))%Z /\
  activeRequests (loader fetching_world) = Z.of_nat (size (tasks fetching_world)) /\
  (Z.of_nat (in_flight fetching_world) <= maxConcurrent (loader fetching_world))%Z.
Proof.
  apply (active_requests_within_limit forum_origin marked_cover_parser fetching_world).
  apply fetching_world_reachable.
Defined.


Lemma loadTopicImages_always_resolves_witness :
  exists v L' w1 w2,
    _loadTopicImagesInternal forum_origin marked_cover_parser (inl 7%Z)
      (FetchResponse 200 BodyNull) 1000 (loader fetching_world) = (Return v, L') /\
    step forum_origin marked_cover_parser fetching_world
      (FetchCompletes 0 (FetchResponse 200 BodyNull) 1000) = Some w1 /\
    step forum_origin marked_cover_parser w1 (Resumes 0) = Some w2 /\
    settled w2 = (settled fetching_world ++ [(0%nat, Resolved v)])%list /\
    (forall e L0,
       internal_try forum_origin marked_cover_parser (inl 7%Z)
         (FetchResponse 200 BodyNull) 1000 (loader fetching_world) = (Throw e, L0) ->
       v = []).
Proof.
  apply (proj2 (loadTopicImages_always_resolves forum_origin marked_cover_parser
                  fetching_world fetching_world_reachable)
           0%nat (inl 7%Z) (FetchResponse 200 BodyNull) 1000).
  reflexivity.
Defined.


(** Outside the states of the class as written: had [maxConcurrent] been
    raised to 2, a 429 that arrives while two requests are active would
    leave [activeRequests] = 2 above [maxConcurrent] = 1 until the requests
    finish. *)
Remark raised_limit_drops_below_active :
  (fun w => (activeRequests (loader w), maxConcurrent (loader w))) <$>
    step forum_origin marked_cover_parser two_fetching_world
      (FetchCompletes 0 (FetchResponse 429 BodyInvalid) 1000)
  = Some (2%Z, 1%Z).
Proof. vm_compute. reflexivity. Qed.

(** * Further properties of the extractor *)

(** A needle found in [s] contains each of its pieces. *)
Lemma prefix_cons_inv (c c' : Ascii.ascii) (n s : string) :
  String.prefix (String c n) (String c' s) = true -> String.prefix n s = true.
Proof. cbn. destruct (Ascii.ascii_dec c c'); [tauto | discriminate]. Qed.

Lemma prefix_app_inv (n post s : string) :
  String.prefix (n +:+ post) s = true -> String.prefix n s = true.
Proof.
  revert s. induction n as [|c n IH]; intros s H; [by destruct s|].
  change (String c n +:+ post) with (String c (n +:+ post)) in H.
  destruct s as [|c' s]; [discriminate|].
  pose proof (prefix_cons_inv _ _ _ _ H) as H'. apply IH in H'.
  revert H. cbn. destruct (Ascii.ascii_dec c c'); [by intros _ | discriminate].
Qed.

Lemma prefix_includes_piece (pre n post s : string) :
  String.prefix (pre +:+ n +:+ post) s = true -> includes s n = true.
Proof.
  revert s. induction pre as [|c pre IH]; intros s H.
  - change ("" +:+ n +:+ post) with (n +:+ post) in H.
    apply prefix_app_inv in H. destruct s; cbn [includes]; by rewrite H.
  - change (String c pre +:+ n +:+ post)
      with (String c (pre +:+ n +:+ post)) in H.
    destruct s as [|c' s]; [discriminate|].
    apply prefix_cons_inv in H.
    cbn [includes]. rewrite (IH s H). apply orb_true_r.
Qed.

Lemma includes_piece (pre n post s : string) :
  includes s (pre +:+ n +:+ post) = true -> includes s n = true.
Proof.
  induction s as [|c s IH]; intros H; cbn [includes] in H;
    apply orb_true_iff in H as [H|H].
  - by apply (prefix_includes_piece pre n post).
  - discriminate.
  - by apply (prefix_includes_piece pre n post).
  - cbn [includes]. rewrite (IH H). apply orb_true_r.
Qed.


Lemma omap_length_le {A B} (f : A -> option B) (l : list A) :
  (length (omap f l) <= length l)%nat.
Proof. induction l as [|x l IH]; cbn; [lia|]. destruct (f x); cbn; lia. Qed.

Section ExtractorExtras.

Variable origin : string.
Variable querySelectorAll_img : string -> list Img.

(** X1. No URL that the extractor returns contains an excluded fragment:
    every returned URL passes the filter of lines 46-51 and 72-77. *)
Theorem extracted_urls_pass_filter html maxImages url :
  url ∈ extractImagesFromHtml origin querySelectorAll_img html maxImages ->
  passes_filter url = true /\
  includes url "/images/emoji/" = false /\
  includes url "/images/" = false /\
  includes url "avatar" = false /\
  includes url "user_avatar" = false.
Proof.
  intros Hin.
  assert (Hurl : exists img, image_url origin img = Some url).
  { unfold extractImagesFromHtml in Hin.
    destruct (negb (truthy_string html)); [by apply elem_of_nil in Hin|].
    rewrite extractImages_eq in Hin.
    destruct (head (omap (cover_body origin) (querySelectorAll_img html)))
      as [u|] eqn:Hh.
    - apply list_elem_of_singleton in Hin. subst u.
      apply head_Some_elem_of, list_elem_of_omap in Hh as (img & _ & Hc).
      apply cover_body_Some in Hc as [_ Hu]. eauto.
    - apply list_elem_of_omap in Hin as (img & _ & Hu). eauto. }
  destruct Hurl as (img & Hu).
  apply image_url_Some in Hu as (s & _ & _ & _ & Hp).
  split; [exact Hp|]. unfold passes_filter in Hp.
  repeat (apply andb_true_iff in Hp as [Hp ?]).
  repeat split; by apply negb_true_iff.
Qed.


(** X3. Two of the four tests of the exclusion filter decide it: a URL is
    kept exactly when it contains neither "/images/" nor "avatar" (the
    tests for "/images/emoji/" and "user_avatar" never change the answer). *)
Theorem filter_is_two_tests url :
  passes_filter url
  = negb (includes url "/images/") && negb (includes url "avatar").
Proof.
  unfold passes_filter.
  destruct (includes url "/images/emoji/") eqn:He.
  - rewrite (includes_piece "" "/images/" "emoji/" url He). reflexivity.
  - destruct (includes url "user_avatar") eqn:Hu.
    + rewrite (includes_piece "user_" "avatar" "" url Hu).
      destruct (includes url "/images/"); reflexivity.
    + destruct (includes url "/images/"), (includes url "avatar"); reflexivity.
Qed.

End ExtractorExtras.

Lemma extracted_urls_pass_filter_witness :
  passes_filter "https://forum.example/b.png" = true /\
  includes "https://forum.example/b.png" "/images/emoji/" = false /\
  includes "https://forum.example/b.png" "/images/" = false /\
  includes "https://forum.example/b.png" "avatar" = false /\
  includes "https://forum.example/b.png" "user_avatar" = false.
Proof.
  apply (extracted_urls_pass_filter forum_origin (fun _ => emoji_then_plain_dom)
           emoji_then_plain_html 2).
  apply list_elem_of_here.
Defined.

(** * Further properties of the loader *)

Section LoaderExtras.

Variable origin : string.
Variable querySelectorAll_img : string -> list Img.

(** ** Helper lemmas *)

(** How one step moves the two throttle fields and the expiry. *)
Lemma step_throttle w ev w' :
  step origin querySelectorAll_img w ev = Some w' ->
  cacheExpiry (loader w') = cacheExpiry (loader w) /\
  if is_rate_limit_event ev then
    requestDelay (loader w') = Z.min (requestDelay (loader w) * 2) 5000 /\
    maxConcurrent (loader w') = 1%Z
  else
    requestDelay (loader w') = requestDelay (loader w) /\
    maxConcurrent (loader w') = maxConcurrent (loader w).
Proof.
  intros Hs. apply step_inv in Hs.
  destruct ev as [id now1 now2|p|p out now|p]; cbn [is_rate_limit_event].
  - subst w'.
    destruct (loadTopicImages_cases id now1 now2 w)
      as [(e & _ & _ & _ & ->)|(cache' & _ & _ & _ & ->)]; [by cbn|].
    match goal with |- context [_processQueue ?x] =>
      pose proof (processQueue_frame x) as (_ & _ & _ & _ & _ & Hd & Hm & He) end.
    cbn in Hd, Hm, He. auto.
  - destruct Hs as (id & d & _ & ->). by cbn.
  - destruct Hs as (id & c & L' & _ & Hi & ->). cbn.
    apply internal_body_of in Hi as (c0 & Hi & _).
    pose proof (internal_try_effect _ _ _ _ _ _ _ _ Hi) as (_ & _ & He & _).
    apply internal_try_throttle in Hi. destruct out as [e|status body]; auto.
  - destruct Hs as (id & c & _ & ->). unfold finally_block.
    match goal with |- context [_processQueue ?x] =>
      pose proof (processQueue_frame x) as (_ & _ & _ & _ & _ & Hd & Hm & He) end.
    cbn in Hd, Hm, He. auto.
Qed.

(** Every URL that the extractor returns is the URL of an image. *)
Lemma extracted_url_has_image html maxImages url :
  url ∈ extractImagesFromHtml origin querySelectorAll_img html maxImages ->
  exists img, image_url origin img = Some url.
Proof.
  intros Hin. unfold extractImagesFromHtml in Hin.
  destruct (negb (truthy_string html)); [by apply elem_of_nil in Hin|].
  rewrite extractImages_eq in Hin.
  destruct (head (omap (cover_body origin) (querySelectorAll_img html)))
    as [u|] eqn:Hh.
  - apply list_elem_of_singleton in Hin. subst u.
    apply head_Some_elem_of, list_elem_of_omap in Hh as (img & _ & Hc).
    apply cover_body_Some in Hc as [_ Hu]. eauto.
  - apply list_elem_of_omap in Hin as (img & _ & Hu). eauto.
Qed.

Lemma extracted_three_well_formed html :
  well_formed_result (extractImagesFromHtml origin querySelectorAll_img html 3).
Proof.
  split.
  - unfold extractImagesFromHtml.
    destruct (negb (truthy_string html)); [cbn; lia|].
    rewrite extractImages_eq.
    destruct (head (omap (cover_body origin) (querySelectorAll_img html)));
      [cbn; lia|].
    pose proof (omap_length_le (image_url origin)
                  (take (Z.to_nat 3) (querySelectorAll_img html))) as Hl.
    rewrite length_take in Hl. lia.
  - apply Forall_forall. intros url Hin.
    apply extracted_url_has_image in Hin as (img & Hu).
    by apply image_url_Some in Hu as (s & _ & _ & _ & Hp).
Qed.

Lemma nil_well_formed : well_formed_result [].
Proof. split; [cbn; lia | constructor]. Qed.

(** What [first_post_images] returns is well formed. *)
Lemma first_post_images_well_formed result L v L' :
  first_post_images origin querySelectorAll_img result L = (Return v, L') ->
  well_formed_result v.
Proof.
  unfold first_post_images, js_ret, js_throw.
  repeat case_match; intros [= <- _];
    first [apply nil_well_formed | apply extracted_three_well_formed].
Qed.

(** What [_loadTopicImagesInternal] returns is well formed, and so is what
    it stores. *)
Lemma internal_well_formed id out now L v L' :
  _loadTopicImagesInternal origin querySelectorAll_img id out now L = (Return v, L') ->
  well_formed_result v /\
  (forall k e, imageCache L' !! k = Some e ->
     imageCache L !! k = Some e \/ well_formed_result (images e)).
Proof.
  intros Hi. apply internal_body_of in Hi as (c0 & Hb & Hc).
  pose proof (internal_try_effect _ _ _ _ _ _ _ _ Hb) as (_ & _ & _ & Heff).
  destruct c0 as [imgs|e].
  - injection Hc as ->. destruct Heff as (Hcache & _).
    assert (Hwf : well_formed_result imgs).
    { unfold internal_try in Hb. destruct out as [e|status body]; [discriminate|].
      destruct (negb (response_ok status)).
      - destruct (status =? 429)%Z; discriminate.
      - unfold js_bind in Hb.
        destruct (await_json body L) as [[r|e] L1]; [|discriminate].
        destruct (first_post_images origin querySelectorAll_img r L1)
          as [[v|e] L2] eqn:Hf; [|discriminate].
        apply first_post_images_well_formed in Hf.
        cbn in Hb. by injection Hb as <- _. }
    split; [exact Hwf|]. intros k e'. rewrite Hcache.
    intros [[_ <-]|[_ Hk]]%lookup_insert_Some; auto.
  - injection Hc as ->. split; [apply nil_well_formed|].
    intros k e'. rewrite Heff. auto.
Qed.

(** ** The sweep and the cache *)

(** X4. [_cleanExpiredCache] is a filter: the loop that deletes from the
    map while it iterates over it leaves exactly the entries whose age is
    below the expiry, and changes no other field. *)
Theorem sweep_is_filter (now : Z) (L : Loader) :
  _cleanExpiredCache now L
  = set_imageCache
      (filter (fun kv : TopicId * CacheEntry =>
                 (now - timestamp kv.2 < cacheExpiry L)%Z) (imageCache L)) L.
Proof.
  unfold _cleanExpiredCache at 1. f_equal. apply map_eq. intros k.
  pose proof (clean_lookup now L k) as Hk.
  unfold _cleanExpiredCache in Hk. cbn [imageCache set_imageCache] in Hk.
  rewrite Hk, map_lookup_filter.
  destruct (imageCache L !! k) as [e|]; [|reflexivity]. cbn.
  destruct (Z.ltb_spec (now - timestamp e) (cacheExpiry L));
    case_guard; cbn in *; try reflexivity; lia.
Qed.

(** X5. A call of [loadTopicImages] never adds to the cache: an entry that
    is there afterwards was there before and is younger than the expiry at
    the time of the sweep; and the call keeps every such entry of the
    other ids. *)
Theorem call_only_evicts id now1 now2 w (k : TopicId) :
  (forall e,
     imageCache (loader (loadTopicImages id now1 now2 w)) !! k = Some e ->
     imageCache (loader w) !! k = Some e /\
     (now1 - timestamp e < cacheExpiry (loader w))%Z) /\
  (k <> id ->
   forall e,
     imageCache (loader w) !! k = Some e ->
     (now1 - timestamp e < cacheExpiry (loader w))%Z ->
     imageCache (loader (loadTopicImages id now1 now2 w)) !! k = Some e).
Proof.
  pose proof (clean_lookup now1 (loader w) k) as Hclean.
  assert (Hcache :
    imageCache (loader (loadTopicImages id now1 now2 w)) !! k
    = imageCache (_cleanExpiredCache now1 (loader w)) !! k \/
    (k = id /\ imageCache (loader (loadTopicImages id now1 now2 w)) !! k = None)).
  { destruct (loadTopicImages_cases id now1 now2 w)
      as [(e & _ & _ & _ & ->)|(cache' & _ & Hid & Hother & ->)]; [by left|].
    match goal with |- context [_processQueue ?x] =>
      pose proof (processQueue_frame x) as (_ & _ & _ & _ & Hc & _) end.
    rewrite Hc. cbn.
    destruct (decide (k = id)) as [->|Hne]; [by right | left; by apply Hother]. }
  split.
  - intros e He. destruct Hcache as [Hc|[_ Hc]]; [|congruence].
    rewrite Hc, Hclean in He.
    destruct (imageCache (loader w) !! k) as [e0|]; [|discriminate].
    destruct (Z.ltb_spec (now1 - timestamp e0) (cacheExpiry (loader w)));
      [|discriminate].
    injection He as <-. auto.
  - intros Hne e He Hfresh. destruct Hcache as [Hc|[Hk _]]; [|contradiction].
    rewrite Hc, Hclean, He.
    destruct (Z.ltb_spec (now1 - timestamp e) (cacheExpiry (loader w)));
      [reflexivity | lia].
Qed.

(** X6. On a 2xx response only the first post is read. When the JSON gives
    nothing to read, the empty sequence is returned and stored in the cache
    like any other result; when the first post has markup, the result is
    what the extractor finds there with a limit of 3, whatever the other
    posts hold. *)
Theorem success_reads_first_post id status t now L :
  response_ok status = true ->
  (no_content t ->
   _loadTopicImagesInternal origin querySelectorAll_img id
     (FetchResponse status (BodyTopic t)) now L
   = (Return [], set_imageCache (<[id := mkEntry [] now]> (imageCache L)) L)) /\
  (forall ps firstPost rest c,
     post_stream t = Some ps ->
     posts ps = Some (Some firstPost :: rest) ->
     cooked firstPost = Some c ->
     truthy_string c = true ->
     let v := extractImagesFromHtml origin querySelectorAll_img c 3 in
     _loadTopicImagesInternal origin querySelectorAll_img id
       (FetchResponse status (BodyTopic t)) now L
     = (Return v, set_imageCache (<[id := mkEntry v now]> (imageCache L)) L)).
Proof.
  intros Hok. split.
  - unfold no_content. intros Hno.
    unfold _loadTopicImagesInternal, try_catch, internal_try.
    rewrite Hok. cbn [negb]. unfold js_bind. cbn [await_json js_ret].
    unfold first_post_images.
    destruct (post_stream t) as [ps|]; [|reflexivity].
    destruct (posts ps) as [[|[firstPost|] rest]|]; try reflexivity; [|done].
    cbn. unfold truthy in Hno.
    destruct (cooked firstPost) as [c|]; [|reflexivity]. by rewrite Hno.
  - intros ps firstPost rest c Hps Hposts Hc Ht. cbv zeta.
    unfold _loadTopicImagesInternal, try_catch, internal_try.
    rewrite Hok. cbn [negb]. unfold js_bind. cbn [await_json js_ret].
    unfold first_post_images. rewrite Hps, Hposts. cbn. by rewrite Hc, Ht.
Qed.

(** ** The backoff *)

(** X7. The delay is a function of the number of 429 responses seen: after
    a run with [k] of them from a new service it is [min(300 * 2^k, 5000)];
    the limit is 1 and the expiry is 300000 throughout. *)
Theorem delay_after_rate_limits evs w :
  run origin querySelectorAll_img new_World evs = Some w ->
  requestDelay (loader w)
  = Z.min (300 * 2 ^ Z.of_nat (length (filter (fun ev => is_rate_limit_event ev = true) evs)))
          5000 /\
  maxConcurrent (loader w) = 1%Z /\
  cacheExpiry (loader w) = 300000%Z.
Proof.
  assert (Hgen : forall evs w0 w k,
    run origin querySelectorAll_img w0 evs = Some w ->
    requestDelay (loader w0) = Z.min (300 * 2 ^ Z.of_nat k) 5000 ->
    maxConcurrent (loader w0) = 1%Z ->
    cacheExpiry (loader w0) = 300000%Z ->
    requestDelay (loader w)
    = Z.min (300 * 2 ^ Z.of_nat
               (k + length (filter (fun ev => is_rate_limit_event ev = true) evs)))
            5000 /\
    maxConcurrent (loader w) = 1%Z /\
    cacheExpiry (loader w) = 300000%Z).
  { clear evs w. induction evs as [|ev evs IH]; intros w0 w k Hrun Hd Hm He.
    - cbn in Hrun. injection Hrun as <-. cbn. by rewrite Nat.add_0_r.
    - cbn [run] in Hrun.
      destruct (step origin querySelectorAll_img w0 ev) as [w1|] eqn:Hs;
        [|discriminate].
      apply step_throttle in Hs as (He1 & Hthr).
      rewrite filter_cons. destruct (is_rate_limit_event ev) eqn:Hev.
      + destruct Hthr as [Hd1 Hm1]. case_decide; [|done].
        cbn [length]. rewrite <- Nat.add_succ_comm.
        apply (IH w1 w (S k) Hrun); [|exact Hm1|congruence].
        rewrite Hd1, Hd, Nat2Z.inj_succ, Z.pow_succ_r by lia.
        assert (0 < 2 ^ Z.of_nat k)%Z by (apply Z.pow_pos_nonneg; lia). lia.
      + destruct Hthr as [Hd1 Hm1]. case_decide; [done|].
        apply (IH w1 w k Hrun); congruence. }
  intros Hrun. apply (Hgen evs new_World w 0%nat Hrun); reflexivity.
Qed.

(** ** Requests for the same topic *)

(** X8. Requests are not coalesced: two calls for the same topic that is
    not in the cache put two requests on the queue, each with a promise of
    its own, and settle neither at once. *)
Theorem same_topic_is_queued_twice id now1 now2 now3 now4 w :
  imageCache (loader w) !! id = None ->
  let w2 := loadTopicImages id now3 now4 (loadTopicImages id now1 now2 w) in
  enqueued w2
  = (enqueued w ++ [mkRequest id (next_promise w);
                    mkRequest id (S (next_promise w))])%list /\
  settled w2 = settled w /\
  next_promise w2 = S (S (next_promise w)).
Proof.
  intros Hnone. cbv zeta.
  assert (Hmiss : forall n1 n2 w0,
    imageCache (loader w0) !! id = None ->
    let w1 := loadTopicImages id n1 n2 w0 in
    enqueued w1 = (enqueued w0 ++ [mkRequest id (next_promise w0)])%list /\
    settled w1 = settled w0 /\
    next_promise w1 = S (next_promise w0) /\
    imageCache (loader w1) !! id = None).
  { intros n1 n2 w0 H0. cbv zeta.
    destruct (loadTopicImages_cases id n1 n2 w0)
      as [(e & He & _)|(cache' & _ & Hid & _ & ->)]; [congruence|].
    match goal with |- context [_processQueue ?x] =>
      pose proof (processQueue_frame x) as (Hs & _ & Hen & Hn & Hc & _) end.
    rewrite Hs, Hen, Hn, Hc. auto. }
  destruct (Hmiss now1 now2 w Hnone) as (He1 & Hs1 & Hn1 & Hc1).
  destruct (Hmiss now3 now4 _ Hc1) as (He2 & Hs2 & Hn2 & _).
  rewrite He2, Hs2, Hn2, He1, Hs1, Hn1, <- app_assoc. auto.
Qed.

(** ** What the callers receive *)

Lemma processQueue_results_well_formed w :
  results_well_formed w -> results_well_formed (_processQueue w).
Proof.
  intros (Hs & Hc & Ht).
  destruct (processQueue_cases w) as [[-> _]|(r & rest & Hq & Hlt & ->)];
    [done|].
  split; [exact Hs|]. split; [exact Hc|]. cbn.
  intros p id v Hp. apply lookup_insert_Some in Hp as [[_ [=]]|[_ Hp]].
  by eapply Ht.
Qed.

Lemma step_results_well_formed w ev w' :
  results_well_formed w ->
  step origin querySelectorAll_img w ev = Some w' ->
  results_well_formed w'.
Proof.
  intros Hr Hstep. pose proof Hr as (Hs & Hc & Ht). apply step_inv in Hstep.
  destruct ev as [id now1 now2|p|p out now|p].
  - subst w'.
    assert (Hclean : forall k e,
      imageCache (_cleanExpiredCache now1 (loader w)) !! k = Some e ->
      well_formed_result (images e)).
    { intros k e. rewrite clean_lookup.
      destruct (imageCache (loader w) !! k) as [e0|] eqn:Hk; [|discriminate].
      destruct (now1 - timestamp e0 <? cacheExpiry (loader w))%Z; [|discriminate].
      intros [= <-]. by eapply Hc. }
    destruct (loadTopicImages_cases id now1 now2 w)
      as [(e & He & H1 & _ & ->)|(cache' & _ & Hid & Hother & ->)].
    + split; [|split; [exact Hclean | exact Ht]]. cbn.
      intros p v Hin. apply elem_of_app in Hin as [Hin|Hin]; [by eapply Hs|].
      apply list_elem_of_singleton in Hin. injection Hin as _ ->. by eapply Hc.
    + apply processQueue_results_well_formed.
      split; [exact Hs|]. split; [|exact Ht]. cbn.
      intros k e He. destruct (decide (k = id)) as [->|Hne]; [congruence|].
      rewrite Hother in He by done. by eapply Hclean.
  - destruct Hstep as (id & d & Hp & ->).
    split; [exact Hs|]. split; [exact Hc|]. cbn.
    intros q id' v Hq. apply lookup_insert_Some in Hq as [[_ [=]]|[_ Hq]].
    by eapply Ht.
  - destruct Hstep as (id & c & L' & Hp & Hi & ->).
    destruct (internal_returns origin querySelectorAll_img id out now (loader w))
      as (v & L0 & Hv).
    rewrite Hv in Hi. injection Hi as <- <-.
    apply internal_well_formed in Hv as (Hwf & Hcache).
    split; [exact Hs|]. split; cbn.
    + intros k e He. destruct (Hcache k e He); [by eapply Hc | done].
    + intros q id' v' Hq.
      apply lookup_insert_Some in Hq as [[_ [= _ <-]]|[_ Hq]]; [done|].
      by eapply Ht.
  - destruct Hstep as (id & c & Hp & ->).
    apply processQueue_results_well_formed.
    split; [|split; [exact Hc|]]; cbn.
    + intros q v Hin. apply elem_of_app in Hin as [Hin|Hin]; [by eapply Hs|].
      apply list_elem_of_singleton in Hin. destruct c as [v0|e]; [|discriminate].
      injection Hin as _ ->. by eapply Ht.
    + intros q id' v Hq. apply lookup_delete_Some in Hq as [_ Hq]. by eapply Ht.
Qed.

(** X9. Whatever the network returns, a caller of [loadTopicImages] gets at
    most three URLs and none of them contains an excluded fragment; the
    same holds for every value in the cache. *)
Theorem resolved_values_are_well_formed w :
  reachable origin querySelectorAll_img w ->
  (forall p v, (p, Resolved v) ∈ settled w ->
     (length v <= 3)%nat /\ Forall (fun url => passes_filter url = true) v) /\
  (forall k e, imageCache (loader w) !! k = Some e ->
     (length (images e) <= 3)%nat /\
     Forall (fun url => passes_filter url = true) (images e)).
Proof.
  intros Hr.
  assert (Hwf : results_well_formed w).
  { induction Hr as [|w ev w' _ IH Hstep].
    - split; [|split]; cbn.
      + intros p v Hin. by apply elem_of_nil in Hin.
      + intros k e He. by rewrite lookup_empty in He.
      + intros p id v Hp. by rewrite lookup_empty in Hp.
    - by eapply step_results_well_formed. }
  destruct Hwf as (Hs & Hc & _). split.
  - intros p v Hin. by apply (Hs p v).
  - intros k e He. by apply (Hc k e).
Qed.

(** ** Every promise is accounted for *)

Lemma accounted_below w p :
  accounted w ->
  (p ∈ promise <$> requestQueue (loader w) \/ is_Some (tasks w !! p) \/
   p ∈ (settled w).*1) ->
  (p < next_promise w)%nat.
Proof. intros (_ & _ & _ & _ & Hn) H. by apply Hn. Qed.

Lemma accounted_next_fresh w :
  accounted w ->
  (next_promise w ∉ promise <$> requestQueue (loader w)) /\
  tasks w !! next_promise w = None /\
  next_promise w ∉ (settled w).*1.
Proof.
  intros Ha.
  assert (Hno : forall P : Prop,
    (P -> (next_promise w < next_promise w)%nat) -> ~ P) by (intros P H HP; specialize (H HP); lia).
  split; [|split].
  - apply Hno. intros H. apply (accounted_below w _ Ha). auto.
  - apply eq_None_not_Some. apply Hno. intros H. apply (accounted_below w _ Ha). auto.
  - apply Hno. intros H. apply (accounted_below w _ Ha). auto.
Qed.

Lemma processQueue_accounted w : accounted w -> accounted (_processQueue w).
Proof.
  intros Ha.
  destruct (processQueue_cases w) as [[-> _]|(r & rest & Hq & Hlt & ->)];
    [done|].
  destruct Ha as (Hnq & Hns & Hqt & Hts & Hn). rewrite Hq in Hnq, Hqt, Hn.
  cbn [fmap list_fmap] in Hnq, Hqt, Hn. fold (fmap promise rest) in Hnq, Hqt, Hn.
  apply NoDup_cons in Hnq as [Hr Hnq].
  unfold accounted. cbn.
  split; [exact Hnq|]. split; [exact Hns|]. split; [|split].
  - intros p Hp. destruct (Hqt p) as [Hnone Hps]; [by right|].
    split; [|exact Hps]. apply lookup_insert_None. split; [exact Hnone|].
    intros <-. contradiction.
  - intros p Hp. apply lookup_insert_is_Some' in Hp as [<-|Hp].
    + apply (Hqt (promise r)). by left.
    + by apply Hts.
  - intros p. rewrite Hn, lookup_insert_is_Some', elem_of_cons.
    destruct (decide (promise r = p)); intuition (subst; eauto; congruence).
Qed.

Lemma step_accounted w ev w' :
  accounted w -> step origin querySelectorAll_img w ev = Some w' -> accounted w'.
Proof.
  intros Ha Hstep. pose proof (accounted_next_fresh w Ha) as (Hfq & Hft & Hfs).
  pose proof Ha as (Hnq & Hns & Hqt & Hts & Hn).
  apply step_inv in Hstep. destruct ev as [id now1 now2|p|p out now|p].
  - subst w'.
    destruct (loadTopicImages_cases id now1 now2 w)
      as [(e & _ & _ & _ & ->)|(cache' & _ & _ & _ & ->)].
    + unfold accounted. cbn. rewrite fmap_app. cbn.
      split; [exact Hnq|]. split; [|split; [|split]].
      * apply NoDup_app. split; [exact Hns|]. split; [|apply NoDup_singleton].
        intros p Hp Hp'. apply list_elem_of_singleton in Hp'. by subst p.
      * intros p Hp. destruct (Hqt p Hp) as [Hnone Hps]. split; [exact Hnone|].
        apply not_elem_of_app. split; [exact Hps|].
        intros Hp'. apply list_elem_of_singleton in Hp'. by subst p.
      * intros p Hp. apply not_elem_of_app. split; [by apply Hts|].
        intros Hp'. apply list_elem_of_singleton in Hp'. subst p.
        rewrite Hft in Hp. by destruct Hp.
      * intros p. rewrite elem_of_app, list_elem_of_singleton.
        specialize (Hn p). split.
        -- intros Hlt. destruct (decide (p = next_promise w)); [auto|].
           assert (p < next_promise w)%nat as Hlt' by lia. apply Hn in Hlt'.
           intuition (subst; eauto; congruence).
        -- intros [H|[H|[H| ->]]]; [| | |lia];
             assert (p < next_promise w)%nat by (apply Hn; auto); lia.
    + apply processQueue_accounted. unfold accounted. cbn. rewrite fmap_app. cbn.
      split; [|split; [exact Hns|split; [|split]]].
      * apply NoDup_app. split; [exact Hnq|]. split; [|apply NoDup_singleton].
        intros p Hp Hp'. apply list_elem_of_singleton in Hp'. by subst p.
      * intros p Hp. apply elem_of_app in Hp as [Hp|Hp]; [by apply Hqt|].
        apply list_elem_of_singleton in Hp. by subst p.
      * exact Hts.
      * intros p. rewrite elem_of_app, list_elem_of_singleton.
        specialize (Hn p). split.
        -- intros Hlt. destruct (decide (p = next_promise w)); [auto|].
           assert (p < next_promise w)%nat as Hlt' by lia. apply Hn in Hlt'.
           intuition (subst; eauto; congruence).
        -- intros [[H| ->]|[H|H]]; [|lia| |];
             assert (p < next_promise w)%nat by (apply Hn; auto); lia.
  - destruct Hstep as (id & d & Hp & ->). unfold accounted. cbn.
    split; [exact Hnq|]. split; [exact Hns|]. split; [|split].
    + intros q Hq. destruct (Hqt q Hq) as [Hnone Hqs]. split; [|exact Hqs].
      apply lookup_insert_None. split; [exact Hnone|]. intros <-. congruence.
    + intros q Hq. apply lookup_insert_is_Some' in Hq as [<-|Hq];
        apply Hts; eauto.
    + intros q. rewrite Hn, lookup_insert_is_Some'.
      destruct (decide (p = q)) as [<-|]; intuition (subst; eauto; congruence).
  - destruct Hstep as (id & c & L' & Hp & Hi & ->).
    apply internal_body_of in Hi as (c0 & Hi & _).
    apply internal_try_effect in Hi as (Hq & _).
    unfold accounted. cbn. rewrite Hq.
    split; [exact Hnq|]. split; [exact Hns|]. split; [|split].
    + intros q Hq'. destruct (Hqt q Hq') as [Hnone Hqs]. split; [|exact Hqs].
      apply lookup_insert_None. split; [exact Hnone|]. intros <-. congruence.
    + intros q Hq'. apply lookup_insert_is_Some' in Hq' as [<-|Hq'];
        apply Hts; eauto.
    + intros q. rewrite Hn, lookup_insert_is_Some'.
      destruct (decide (p = q)) as [<-|]; intuition (subst; eauto; congruence).
  - destruct Hstep as (id & c & Hp & ->). unfold finally_block.
    apply processQueue_accounted. unfold accounted, settle. cbn.
    rewrite fmap_app. cbn.
    assert (Hps : p ∉ (settled w).*1) by (apply Hts; eauto).
    assert (Hpq : p ∉ promise <$> requestQueue (loader w)).
    { intros H. destruct (Hqt p H) as [Hnone _]. congruence. }
    split; [exact Hnq|]. split; [|split; [|split]].
    + apply NoDup_app. split; [exact Hns|]. split; [|apply NoDup_singleton].
      intros q Hq Hq'. apply list_elem_of_singleton in Hq'. by subst q.
    + intros q Hq. destruct (Hqt q Hq) as [Hnone Hqs]. split.
      * apply lookup_delete_None. by right.
      * apply not_elem_of_app. split; [exact Hqs|].
        intros Hq'. apply list_elem_of_singleton in Hq'. by subst q.
    + intros q Hq. apply lookup_delete_is_Some in Hq as [Hne Hq].
      apply not_elem_of_app. split; [by apply Hts|].
      intros Hq'. apply list_elem_of_singleton in Hq'. by subst q.
    + intros q. rewrite Hn, lookup_delete_is_Some, elem_of_app,
        list_elem_of_singleton.
      destruct (decide (p = q)) as [<-|]; intuition (subst; eauto; congruence).
Qed.

Lemma reachable_accounted w :
  reachable origin querySelectorAll_img w -> accounted w.
Proof.
  induction 1 as [|w ev w' _ IH Hstep]; [|by eapply step_accounted].
  unfold accounted. cbn. split; [constructor|]. split; [constructor|].
  split; [|split].
  - intros p Hp. by apply elem_of_nil in Hp.
  - intros p [t Hp]. by rewrite lookup_empty in Hp.
  - intros p. split; [lia|]. intros [H|[[t H]|H]].
    + by apply elem_of_nil in H.
    + by rewrite lookup_empty in H.
    + by apply elem_of_nil in H.
Qed.

(** X10. No request is lost and none is settled twice: in every state the
    service can reach, each promise handed out so far is either waiting in
    the queue, or held by a suspended activation of [_processQueue], or
    settled, in exactly one of the three, and once. *)
Theorem every_promise_is_accounted w :
  reachable origin querySelectorAll_img w ->
  NoDup (promise <$> requestQueue (loader w)) /\
  NoDup (settled w).*1 /\
  (forall p, p ∈ promise <$> requestQueue (loader w) ->
             tasks w !! p = None /\ p ∉ (settled w).*1) /\
  (forall p, is_Some (tasks w !! p) -> p ∉ (settled w).*1) /\
  (forall p, (p < next_promise w)%nat <->
             (p ∈ promise <$> requestQueue (loader w) \/
              is_Some (tasks w !! p) \/
              p ∈ (settled w).*1)).
Proof. intros Hr. exact (reachable_accounted w Hr). Qed.

(** ** The queue always drains *)

Lemma run_app evs1 : forall evs2 w w1,
  run origin querySelectorAll_img w evs1 = Some w1 ->
  run origin querySelectorAll_img w (evs1 ++ evs2)%list
  = run origin querySelectorAll_img w1 evs2.
Proof.
  induction evs1 as [|ev evs1 IH]; intros evs2 w w1 Hrun; cbn in Hrun.
  - by injection Hrun as <-.
  - cbn. destruct (step origin querySelectorAll_img w ev) as [w0|];
      [by apply IH | discriminate].
Qed.

Lemma processQueue_no_stall w : bounded w -> no_stall (_processQueue w).
Proof.
  intros (Hm & Ha & Hle). unfold no_stall.
  destruct (processQueue_cases w) as [[-> [Hq|Hfull]]|(r & rest & Hq & Hlt & ->)].
  - by left.
  - right. intros Hempty. rewrite Hempty, map_size_empty in Ha. lia.
  - right. cbn. apply insert_non_empty.
Qed.

Lemma processQueue_pending w :
  bounded w -> pending_work (_processQueue w) = pending_work w.
Proof.
  intros (Hm & Ha & Hle). unfold pending_work.
  destruct (processQueue_cases w) as [[-> _]|(r & rest & Hq & Hlt & ->)];
    [done|].
  assert (Hempty : tasks w = ∅) by (apply map_size_empty_inv; lia).
  cbn. rewrite Hq, Hempty, map_size_insert_None, map_size_empty
    by apply lookup_empty.
  cbn. lia.
Qed.

(** The state in the [finally] block, before the dispatch step runs. *)
Lemma finally_pre_bounded w p t c :
  bounded w -> tasks w !! p = Some t ->
  bounded (mkWorld
             (set_activeRequests (activeRequests (loader w) - 1) (loader w))
             (delete p (tasks w)) (settled w ++ [(p, c)]) (next_promise w)
             (enqueued w) (dispatched w) (fetched w)) /\
  S (size (delete p (tasks w))) = size (tasks w).
Proof.
  intros (Hm & Ha & Hle) Ht.
  assert (size (tasks w) <> 0%nat) by (apply (map_size_ne_0_lookup_2 _ p); eauto).
  assert (Hsz : size (delete p (tasks w)) = pred (size (tasks w)))
    by (apply map_size_delete_Some; eauto).
  split; [|lia]. unfold bounded. cbn. lia.
Qed.

Lemma reachable_no_stall w :
  reachable origin querySelectorAll_img w -> no_stall w.
Proof.
  induction 1 as [|w ev w' Hr IH Hstep]; [by left|].
  pose proof (reachable_bounded origin querySelectorAll_img w Hr) as Hb.
  apply step_inv in Hstep. destruct ev as [id now1 now2|p|p out now|p].
  - subst w'.
    destruct (loadTopicImages_cases id now1 now2 w)
      as [(e & _ & _ & _ & ->)|(cache' & _ & _ & _ & ->)]; [exact IH|].
    apply processQueue_no_stall. exact Hb.
  - destruct Hstep as (id & d & _ & ->). right. cbn. apply insert_non_empty.
  - destruct Hstep as (id & c & L' & _ & _ & ->). right. cbn.
    apply insert_non_empty.
  - destruct Hstep as (id & c & Ht & ->). unfold finally_block, settle. cbn.
    apply processQueue_no_stall. by eapply finally_pre_bounded.
Qed.

(** An active request can be brought to its end, whatever its fetch
    returns. *)
Lemma finish_task outcome now w p t :
  reachable origin querySelectorAll_img w ->
  tasks w !! p = Some t ->
  exists evs w',
    run origin querySelectorAll_img w evs = Some w' /\
    Forall (served_by outcome now) evs /\
    (pending_work w' < pending_work w)%nat /\
    next_promise w' = next_promise w.
Proof.
  assert (Hresume : forall w id c,
    reachable origin querySelectorAll_img w ->
    tasks w !! p = Some (mkTask id (Completed c)) ->
    exists w',
      step origin querySelectorAll_img w (Resumes p) = Some w' /\
      (pending_work w' < pending_work w)%nat /\
      next_promise w' = next_promise w).
  { clear w t. intros w id c Hr Ht.
    pose proof (reachable_bounded origin querySelectorAll_img w Hr) as Hb.
    eexists. cbn [step]. rewrite Ht. split; [reflexivity|].
    unfold finally_block, settle. cbn.
    match goal with |- context [_processQueue ?x] =>
      pose proof (processQueue_frame x) as (_ & _ & _ & Hn & _);
      destruct (finally_pre_bounded w p _
                  (match c with Return imgs => Resolved imgs
                              | Throw e => Rejected e end) Hb Ht) as [Hb' Hsz] end.
    rewrite Hn, (processQueue_pending _ Hb').
    split; [|reflexivity]. unfold pending_work. cbn. lia. }
  assert (Hfetch : forall w id,
    reachable origin querySelectorAll_img w ->
    tasks w !! p = Some (mkTask id Fetching) ->
    exists w1 id' c,
      step origin querySelectorAll_img w (FetchCompletes p (outcome p) now) = Some w1 /\
      tasks w1 !! p = Some (mkTask id' (Completed c)) /\
      pending_work w1 = pending_work w /\
      next_promise w1 = next_promise w).
  { clear w t. intros w id Hr Ht.
    destruct (_loadTopicImagesInternal origin querySelectorAll_img id
                (outcome p) now (loader w)) as [c L'] eqn:Hi.
    eexists _, id, c. cbn [step]. rewrite Ht, Hi. split; [reflexivity|].
    cbn. rewrite lookup_insert_eq. split; [reflexivity|]. split; [|reflexivity].
    apply internal_body_of in Hi as (c0 & Hi & _).
    apply internal_try_effect in Hi as (Hq & _).
    unfold pending_work. cbn. rewrite Hq, map_size_insert_Some by eauto.
    reflexivity. }
  intros Hr Ht. destruct t as [id [d| |c]].
  - assert (Hs0 : step origin querySelectorAll_img w (TimerFires p)
                  = Some (mkWorld (loader w) (<[p := mkTask id Fetching]> (tasks w))
                            (settled w) (next_promise w) (enqueued w)
                            (dispatched w) (fetched w ++ [id])))
      by (cbn [step]; by rewrite Ht).
    pose proof (reachable_step _ _ _ _ _ Hr Hs0) as Hr0.
    destruct (Hfetch _ id Hr0 (lookup_insert_eq _ _ _))
      as (w1 & id' & c & Hs1 & Ht1 & Hp1 & Hn1).
    pose proof (reachable_step _ _ _ _ _ Hr0 Hs1) as Hr1.
    destruct (Hresume _ id' c Hr1 Ht1) as (w2 & Hs2 & Hp2 & Hn2).
    exists [TimerFires p; FetchCompletes p (outcome p) now; Resumes p], w2.
    split; [cbn [run]; by rewrite Hs0, Hs1, Hs2|].
    split; [repeat constructor|]. split.
    + assert (pending_work
                (mkWorld (loader w) (<[p := mkTask id Fetching]> (tasks w))
                   (settled w) (next_promise w) (enqueued w)
                   (dispatched w) (fetched w ++ [id])) = pending_work w).
      { unfold pending_work. cbn. by rewrite map_size_insert_Some by eauto. }
      lia.
    + by rewrite Hn2, Hn1.
  - destruct (Hfetch _ id Hr Ht) as (w1 & id' & c & Hs1 & Ht1 & Hp1 & Hn1).
    pose proof (reachable_step _ _ _ _ _ Hr Hs1) as Hr1.
    destruct (Hresume _ id' c Hr1 Ht1) as (w2 & Hs2 & Hp2 & Hn2).
    exists [FetchCompletes p (outcome p) now; Resumes p], w2.
    split; [cbn [run]; by rewrite Hs1, Hs2|].
    split; [repeat constructor|]. split; [lia | by rewrite Hn2, Hn1].
  - destruct (Hresume _ id c Hr Ht) as (w2 & Hs2 & Hp2 & Hn2).
    exists [Resumes p], w2.
    split; [cbn [run]; by rewrite Hs2|].
    split; [repeat constructor|]. auto.
Qed.

Lemma drain_bounded outcome now n : forall w,
  (pending_work w <= n)%nat ->
  reachable origin querySelectorAll_img w ->
  exists evs w',
    run origin querySelectorAll_img w evs = Some w' /\
    Forall (served_by outcome now) evs /\
    requestQueue (loader w') = [] /\
    tasks w' = ∅ /\
    next_promise w' = next_promise w.
Proof.
  induction n as [|n IH]; intros w Hle Hr.
  - exists [], w. unfold pending_work in Hle.
    split; [reflexivity|]. split; [constructor|].
    split; [apply length_zero_iff_nil; lia|].
    split; [apply map_size_empty_inv; lia | reflexivity].
  - destruct (map_choose_or_empty (tasks w)) as [(p & t & Ht)|Hempty].
    + destruct (finish_task outcome now w p t Hr Ht)
        as (evs1 & w1 & Hrun1 & Hev1 & Hlt & Hn1).
      pose proof (run_reachable origin querySelectorAll_img evs1 w w1 Hr Hrun1) as Hr1.
      assert (Hle1 : (pending_work w1 <= n)%nat) by lia.
      destruct (IH w1 Hle1 Hr1) as (evs2 & w2 & Hrun2 & Hev2 & Hq & Hts & Hn2).
      exists (evs1 ++ evs2)%list, w2.
      split; [by rewrite (run_app evs1 evs2 w w1 Hrun1)|].
      split; [by apply Forall_app|]. split; [exact Hq|].
      split; [exact Hts | congruence].
    + exists [], w. split; [reflexivity|]. split; [constructor|].
      destruct (reachable_no_stall w Hr) as [Hq|Hne]; [|contradiction].
      auto.
Qed.

(** X11. The queue never stalls and always drains. In every state the
    service can reach, requests wait only while another one is active; and
    however the fetches end, there is a finite continuation without new
    calls (timers firing, fetches ending as prescribed, activations
    resuming) after which the queue is empty, nothing is active, and every
    promise handed out has been settled. *)
Theorem queue_always_drains w (outcome : nat -> FetchOutcome) (now : Z) :
  reachable origin querySelectorAll_img w ->
  (requestQueue (loader w) <> [] -> tasks w <> ∅) /\
  exists evs w',
    run origin querySelectorAll_img w evs = Some w' /\
    Forall (served_by outcome now) evs /\
    requestQueue (loader w') = [] /\
    tasks w' = ∅ /\
    (forall p, (p < next_promise w)%nat -> p ∈ (settled w').*1).
Proof.
  intros Hr. split.
  - intros Hne. by destruct (reachable_no_stall w Hr).
  - destruct (drain_bounded outcome now (pending_work w) w (le_n _) Hr)
      as (evs & w' & Hrun & Hev & Hq & Hts & Hn).
    exists evs, w'. repeat split; try assumption.
    intros p Hp.
    pose proof (run_reachable origin querySelectorAll_img evs w w' Hr Hrun) as Hr'.
    destruct (reachable_accounted w' Hr') as (_ & _ & _ & _ & Hacc).
    rewrite <- Hn in Hp. apply Hacc in Hp as [Hp|[[t Hp]|Hp]].
    + rewrite Hq in Hp. by apply elem_of_nil in Hp.
    + by rewrite Hts, lookup_empty in Hp.
    + exact Hp.
Qed.

End LoaderExtras.

(** * Properties of the component that calls the loader *)

Section ComponentProperties.

Variable origin : string.
Variable querySelectorAll_img : string -> list Img.

Lemma settlement_of_elem p l s : settlement_of p l = Some s -> (p, s) ∈ l.
Proof.
  induction l as [|[q s'] l IH]; cbn; [discriminate|].
  case_decide as Hq.
  - intros [= <-]. subst q. apply list_elem_of_here.
  - intros H. apply list_elem_of_further. by apply IH.
Qed.

(** What is settled stays settled, in the same order. *)
Lemma step_settled_app w ev w' :
  step origin querySelectorAll_img w ev = Some w' ->
  exists l, settled w' = (settled w ++ l)%list.
Proof.
  intros Hstep. apply step_inv in Hstep.
  destruct ev as [id now1 now2|p|p out now|p].
  - subst w'.
    destruct (loadTopicImages_cases id now1 now2 w)
      as [(e & _ & _ & _ & ->)|(cache' & _ & _ & _ & ->)].
    + cbn. eauto.
    + match goal with |- context [_processQueue ?y] =>
        pose proof (processQueue_frame y) as (Hs & _) end.
      rewrite Hs. cbn. exists []. by rewrite app_nil_r.
  - destruct Hstep as (id & d & _ & ->). cbn. exists []. by rewrite app_nil_r.
  - destruct Hstep as (id & c & L' & _ & _ & ->). cbn. exists [].
    by rewrite app_nil_r.
  - destruct Hstep as (id & c & _ & ->). unfold finally_block.
    match goal with |- context [_processQueue ?y] =>
      pose proof (processQueue_frame y) as (Hs & _) end.
    rewrite Hs. cbn. eauto.
Qed.

(** The settlement of a promise is the first one recorded for it. *)
Lemma settlement_of_app p l l' s :
  settlement_of p l = Some s -> settlement_of p (l ++ l') = Some s.
Proof.
  induction l as [|[q s'] l IH]; cbn; [discriminate|].
  case_decide; [done | exact IH].
Qed.

Lemma ui_reachable_service u :
  ui_reachable origin querySelectorAll_img u ->
  reachable origin querySelectorAll_img (service u).
Proof.
  induction 1 as [|u ev u' _ IH Hstep]; [apply reachable_new|].
  destruct ev as [blog topic now1 now2|ev|]; cbn in Hstep.
  - destruct (loadImages_begin blog topic (component u)) as [c' [id|]];
      injection Hstep as <-; cbn; [|exact IH].
    by apply (reachable_step _ _ (service u) (Call id now1 now2)).
  - destruct (step origin querySelectorAll_img (service u) ev) as [w'|] eqn:Hs;
      [|discriminate].
    injection Hstep as <-. cbn. by eapply reachable_step.
  - destruct (awaiting u) as [p|]; [|discriminate].
    destruct (settlement_of p (settled (service u))); [|discriminate].
    by injection Hstep as <-.
Qed.

Lemma ui_reachable_stage u :
  ui_reachable origin querySelectorAll_img u -> ui_stage u.
Proof.
  induction 1 as [|u ev u' Hr IH Hstep]; [by left|].
  pose proof (ui_reachable_service u Hr) as Hw.
  destruct ev as [blog topic now1 now2|ev|]; cbn in Hstep.
  - destruct IH as [(Hc & Hcomp & Ha)|[(id & p & Hc & Hcomp & Ha)|
                    (id & p & v & Hc & Hcomp & Ha & Hv)]];
      unfold loadImages_begin in Hstep; rewrite Hcomp in Hstep; cbn in Hstep.
    + destruct blog; [|injection Hstep as <-; left; cbn; auto].
      destruct (truthy_id (loadImages_topicId topic));
        [|injection Hstep as <-; left; cbn; auto].
      destruct (loadImages_topicId topic) as [id|];
        injection Hstep as <-; [|left; cbn; auto].
      right. left. exists id, (next_promise (service u)). cbn. by rewrite Hc.
    + injection Hstep as <-. right. left. exists id, p. cbn. auto.
    + injection Hstep as <-. right. right. exists id, p, v. cbn. auto.
  - destruct (step origin querySelectorAll_img (service u) ev) as [w'|] eqn:Hs;
      [|discriminate].
    injection Hstep as <-.
    destruct IH as [H|[H|(id & p & v & Hc & Hcomp & Ha & Hv)]];
      [by left | by right; left |].
    right. right. exists id, p, v. cbn. repeat split; try assumption.
    destruct (step_settled_app _ _ _ Hs) as [l ->].
    by apply settlement_of_app.
  - destruct (awaiting u) as [p|] eqn:Ha; [|discriminate].
    destruct (settlement_of p (settled (service u))) as [s|] eqn:Hs;
      [|discriminate].
    injection Hstep as <-. pose proof (settlement_of_elem _ _ _ Hs) as Hin.
    destruct (reachable_only_resolves origin querySelectorAll_img _ Hw)
      as [Hres _].
    destruct (Hres p s Hin) as [v ->].
    destruct IH as [(_ & _ & Hn)|[(id & p' & Hc & Hcomp & Hp')|
                    (id & p' & v' & _ & _ & Hn & _)]]; [congruence| |congruence].
    assert (p' = p) by congruence. subst p'.
    right. right. exists id, p, v. cbn. auto.
Qed.

Lemma ui_run_reachable evs : forall u u',
  ui_reachable origin querySelectorAll_img u ->
  ui_run origin querySelectorAll_img u evs = Some u' ->
  ui_reachable origin querySelectorAll_img u'.
Proof.
  induction evs as [|ev evs IH]; intros u u' Hr Hrun; cbn in Hrun.
  - by injection Hrun as <-.
  - destruct (ui_step origin querySelectorAll_img u ev) as [u1|] eqn:Hs;
      [|discriminate].
    eapply IH; [|exact Hrun]. by eapply ui_reachable_step.
Qed.

(** X12. A component calls [loadTopicImages] at most once in its life. It
    is loading exactly while it waits, and what it waits for is the
    promise of that one call. Once that promise has settled the component
    is marked as loaded and holds the value with which that very promise
    was resolved (at most three URLs, none with an excluded fragment); it
    never asks again, also when the value is the empty sequence of a
    failed fetch. *)
Theorem component_loads_once u :
  ui_reachable origin querySelectorAll_img u ->
  (length (calls u) <= 1)%nat /\
  (isLoading (component u) = true <-> is_Some (awaiting u)) /\
  (forall p, awaiting u = Some p ->
     hasLoaded (component u) = false /\ exists id, calls u = [(id, p)]) /\
  (hasLoaded (component u) = true ->
   isLoading (component u) = false /\
   awaiting u = None /\
   exists id p,
     calls u = [(id, p)] /\
     settlement_of p (settled (service u))
     = Some (Resolved (extractedImages (component u)))) /\
  (hasLoaded (component u) = false -> extractedImages (component u) = []) /\
  (length (extractedImages (component u)) <= 3)%nat /\
  Forall (fun url => passes_filter url = true) (extractedImages (component u)).
Proof.
  intros Hr. pose proof (ui_reachable_service u Hr) as Hw.
  destruct (ui_reachable_stage u Hr)
    as [(Hc & Hcomp & Ha)|[(id & p & Hc & Hcomp & Ha)|
        (id & p & v & Hc & Hcomp & Ha & Hv)]];
    rewrite Hc, Hcomp, Ha; cbn.
  - repeat split;
      first [done | lia | by intros [x Hx] | by constructor | by eauto].
  - repeat split;
      first [done | lia | by intros [x Hx] | by constructor
            | by simplify_eq; eauto].
  - assert (Hwf : well_formed_result v).
    { apply settlement_of_elem in Hv. clear -Hw Hv. revert Hv.
      assert (Hall : results_well_formed (service u)).
      { induction Hw as [|w ev w' _ IH Hstep].
        - split; [|split]; cbn.
          + intros q x Hin. by apply elem_of_nil in Hin.
          + intros k e He. by rewrite lookup_empty in He.
          + intros q i x Hq. by rewrite lookup_empty in Hq.
        - by eapply step_results_well_formed. }
      destruct Hall as (Hs & _). apply Hs. }
    destruct Hwf as [Hlen Hall].
    repeat split;
      first [done | lia | by intros [x Hx] | by constructor | by eauto].
Qed.

(** X13. The flag and the list agree in one direction: when [imageUrls] is
    not empty, [hasThumbnail] is true. They disagree, [hasThumbnail] true
    with an empty [imageUrls], exactly outside blog style for a topic whose
    [thumbnails] is an empty array. In blog style the flag is true exactly
    when there are extracted images; outside it, exactly when the topic has
    a [thumbnails] array, and [imageUrls] has at most one element. *)
Theorem thumbnail_flag_and_urls displayBlogStyle topic c :
  (imageUrls displayBlogStyle topic c <> [] ->
   hasThumbnail displayBlogStyle topic c = true) /\
  ((hasThumbnail displayBlogStyle topic c = true /\
    imageUrls displayBlogStyle topic c = []) <->
   (displayBlogStyle = false /\ thumbnails topic = Some [])) /\
  (displayBlogStyle = true ->
   (hasThumbnail displayBlogStyle topic c = true <-> extractedImages c <> [])) /\
  (displayBlogStyle = false ->
   (hasThumbnail displayBlogStyle topic c = true <-> is_Some (thumbnails topic)) /\
   (length (imageUrls displayBlogStyle topic c) <= 1)%nat).
Proof.
  clear origin querySelectorAll_img.
  unfold hasThumbnail, imageUrls. destruct displayBlogStyle.
  - destruct (extractedImages c) as [|x l]; cbn;
      intuition (try discriminate; try congruence).
  - destruct (thumbnails topic) as [[|u l]|]; cbn;
      intuition (try discriminate; try congruence; try lia; eauto);
      match goal with H : is_Some None |- _ => by destruct H end.
Qed.

End ComponentProperties.

(** * Fetches follow the queue *)

Section FetchOrder.

Variable origin : string.
Variable querySelectorAll_img : string -> list Img.

(** With at most one suspended activation, two keys of [tasks] are one. *)
Lemma single_task w p q t t' :
  bounded w -> tasks w !! p = Some t -> tasks w !! q = Some t' -> p = q.
Proof.
  intros (Hm & Ha & Hle) Hp Hq. destruct (decide (p = q)) as [|Hne]; [done|].
  exfalso.
  assert (Hq' : delete p (tasks w) !! q = Some t') by (by rewrite lookup_delete_ne).
  assert (size (delete p (tasks w)) <> 0%nat)
    by (apply (map_size_ne_0_lookup_2 _ q); eauto).
  assert (size (delete p (tasks w)) = pred (size (tasks w)))
    by (apply map_size_delete_Some; eauto).
  lia.
Qed.

Lemma processQueue_fetches_follow w :
  bounded w -> fetches_follow w -> fetches_follow (_processQueue w).
Proof.
  intros (Hm & Ha & Hle) [Ht He].
  destruct (processQueue_cases w) as [[-> _]|(r & rest & Hq & Hlt & ->)];
    [done|].
  assert (Hempty : tasks w = ∅) by (apply map_size_empty_inv; lia).
  split; cbn.
  - intros p t Hp. rewrite Hempty in Hp.
    apply lookup_insert_Some in Hp as [[<- <-]|[_ Hp]];
      [|by rewrite lookup_empty in Hp].
    exists (dispatched w). cbn. split; [by destruct r|]. by apply He.
  - intros H. by apply insert_non_empty in H.
Qed.

Lemma step_fetches_follow w ev w' :
  bounded w -> fetches_follow w ->
  step origin querySelectorAll_img w ev = Some w' ->
  fetches_follow w'.
Proof.
  intros Hb Hf Hstep. pose proof Hf as [Ht He]. apply step_inv in Hstep.
  destruct ev as [id now1 now2|p|p out now|p].
  - subst w'.
    destruct (loadTopicImages_cases id now1 now2 w)
      as [(e & _ & _ & _ & ->)|(cache' & _ & _ & _ & ->)]; [exact Hf|].
    apply processQueue_fetches_follow; [exact Hb | exact Hf].
  - destruct Hstep as (id & d & Hp & ->).
    destruct (Ht p _ Hp) as (d0 & Hd & Hfe). cbn in Hd, Hfe.
    split; cbn.
    + intros q t Hq. apply lookup_insert_Some in Hq as [[<- <-]|[Hne Hq]].
      * exists d0. cbn. split; [exact Hd|].
        by rewrite Hfe, Hd, fmap_app.
      * by destruct (Hne (single_task w p q _ _ Hb Hp Hq)).
    + intros H. by apply insert_non_empty in H.
  - destruct Hstep as (id & c & L' & Hp & Hi & ->).
    destruct (Ht p _ Hp) as (d0 & Hd & Hfe). cbn in Hd, Hfe.
    split; cbn.
    + intros q t Hq. apply lookup_insert_Some in Hq as [[<- <-]|[Hne Hq]].
      * exists d0. cbn. auto.
      * by destruct (Hne (single_task w p q _ _ Hb Hp Hq)).
    + intros H. by apply insert_non_empty in H.
  - destruct Hstep as (id & c & Hp & ->).
    destruct (Ht p _ Hp) as (d0 & Hd & Hfe). cbn in Hd, Hfe.
    unfold finally_block, settle. cbn.
    destruct (finally_pre_bounded w p _
                (match c with Return imgs => Resolved imgs
                            | Throw e => Rejected e end) Hb Hp) as [Hb' Hsz].
    apply processQueue_fetches_follow; [exact Hb'|].
    split; cbn.
    + intros q t Hq. apply lookup_delete_Some in Hq as [Hne Hq].
      by destruct (Hne (single_task w p q _ _ Hb Hp Hq)).
    + intros _. exact Hfe.
Qed.

Lemma reachable_fetches_follow w :
  reachable origin querySelectorAll_img w -> fetches_follow w.
Proof.
  induction 1 as [|w ev w' Hr IH Hstep].
  - split; cbn; [|done]. intros p t Hp. by rewrite lookup_empty in Hp.
  - eapply step_fetches_follow; [|exact IH|exact Hstep].
    by apply (reachable_bounded origin querySelectorAll_img).
Qed.

(** X14. Every fetch goes through the queue, in order: in every state the
    service can reach, the k-th fetch sent is the fetch for the k-th
    request that was queued, and the fetches sent are those of all requests
    taken from the queue, except at most the last one, whose delay is
    running. *)
Theorem fetches_follow_the_queue w :
  reachable origin querySelectorAll_img w ->
  fetched w = topicId <$> take (length (fetched w)) (enqueued w) /\
  (length (fetched w) <= length (dispatched w) <= S (length (fetched w)))%nat /\
  ((forall p t d, tasks w !! p = Some t -> phase t <> Delaying d) ->
   fetched w = topicId <$> dispatched w).
Proof.
  intros Hr. pose proof (reachable_fetches_follow w Hr) as [Ht He].
  pose proof (reachable_fifo origin querySelectorAll_img w Hr) as Hfifo.
  unfold fifo in Hfifo.
  assert (Hcases :
    fetched w = topicId <$> dispatched w \/
    exists d0 r p t, dispatched w = (d0 ++ [r])%list /\ fetched w = topicId <$> d0 /\
                     tasks w !! p = Some t /\ exists d, phase t = Delaying d).
  { destruct (map_choose_or_empty (tasks w)) as [(p & t & Hp)|Hempty];
      [|left; by apply He].
    destruct (Ht p t Hp) as (d0 & Hd & Hfe).
    destruct (phase t) as [d| |c] eqn:Hph; [|by left|by left].
    right. exists d0, (mkRequest (task_topic t) p), p, t. eauto. }
  destruct Hcases as [Hall|(d0 & r & p & t & Hd & Hfe & Hp & d & Hph)].
  - assert (Hlen : length (fetched w) = length (dispatched w))
      by (by rewrite Hall, length_fmap).
    split; [|split; [lia | done]].
    rewrite Hlen, Hfifo, take_app_length. exact Hall.
  - assert (Hlen : length (fetched w) = length d0) by (by rewrite Hfe, length_fmap).
    split; [|split].
    + rewrite Hlen, Hfifo, Hd, <- app_assoc, take_app_length. exact Hfe.
    + rewrite Hd, length_app. cbn. lia.
    + intros Hno. by destruct (Hno p t d Hp).
Qed.

End FetchOrder.

(** * Expiry and refetch *)

Section Expiry.

Variable origin : string.
Variable querySelectorAll_img : string -> list Img.

(** What [_loadTopicImagesInternal] does on a 2xx response, read off the
    JSON. *)
Lemma internal_on_2xx id status t now L :
  response_ok status = true ->
  (no_content t ->
   _loadTopicImagesInternal origin querySelectorAll_img id
     (FetchResponse status (BodyTopic t)) now L
   = (Return [], set_imageCache (<[id := mkEntry [] now]> (imageCache L)) L)) /\
  (forall ps firstPost rest c,
     post_stream t = Some ps ->
     posts ps = Some (Some firstPost :: rest) ->
     cooked firstPost = Some c ->
     truthy_string c = true ->
     _loadTopicImagesInternal origin querySelectorAll_img id
       (FetchResponse status (BodyTopic t)) now L
     = (Return (extractImagesFromHtml origin querySelectorAll_img c 3),
        set_imageCache
          (<[id := mkEntry (extractImagesFromHtml origin querySelectorAll_img c 3) now]>
             (imageCache L)) L)).
Proof.
  intros Hok. split.
  - unfold no_content. intros Hno.
    unfold _loadTopicImagesInternal, try_catch, internal_try.
    rewrite Hok. cbn [negb]. unfold js_bind. cbn [await_json js_ret].
    unfold first_post_images.
    destruct (post_stream t) as [ps|]; [|reflexivity].
    destruct (posts ps) as [[|[firstPost|] rest]|]; try reflexivity; [|done].
    cbn. unfold truthy in Hno.
    destruct (cooked firstPost) as [c|]; [|reflexivity]. by rewrite Hno.
  - intros ps firstPost rest c Hps Hposts Hc Ht.
    unfold _loadTopicImagesInternal, try_catch, internal_try.
    rewrite Hok. cbn [negb]. unfold js_bind. cbn [await_json js_ret].
    unfold first_post_images. rewrite Hps, Hposts. cbn. by rewrite Hc, Ht.
Qed.

(** The arrival of a 2xx response for an active request stores an entry
    for its topic, stamped with the time of the arrival, whatever was
    stored for that topic before. *)
Lemma arrival_stores_entry w p id status t now v L' :
  tasks w !! p = Some (mkTask id Fetching) ->
  _loadTopicImagesInternal origin querySelectorAll_img id
    (FetchResponse status (BodyTopic t)) now (loader w)
  = (Return v, L') ->
  imageCache L' !! id = Some (mkEntry v now) ->
  exists w1 w2,
    step origin querySelectorAll_img w
      (FetchCompletes p (FetchResponse status (BodyTopic t)) now) = Some w1 /\
    imageCache (loader w1) !! id = Some (mkEntry v now) /\
    step origin querySelectorAll_img w1 (Resumes p) = Some w2 /\
    settled w2 = (settled w ++ [(p, Resolved v)])%list /\
    imageCache (loader w2) !! id = Some (mkEntry v now).
Proof.
  intros Ht Hi Hc.
  destruct (fetch_then_resume origin querySelectorAll_img _ _ _ _ _ _ _ Ht Hi)
    as (w1 & w2 & H1 & HL & _ & _ & H2 & Hs & Hc2).
  exists w1, w2. rewrite Hc2, HL. auto.
Qed.

(** Finishing the active request hands the turn to the head of the queue. *)
Lemma finish_task_next outcome now w p t h rest :
  reachable origin querySelectorAll_img w ->
  tasks w !! p = Some t ->
  requestQueue (loader w) = h :: rest ->
  exists evs w' d,
    run origin querySelectorAll_img w evs = Some w' /\
    Forall (served_by outcome now) evs /\
    requestQueue (loader w') = rest /\
    tasks w' !! promise h = Some (mkTask (topicId h) (Delaying d)).
Proof.
  assert (Hresume : forall w id c,
    reachable origin querySelectorAll_img w ->
    tasks w !! p = Some (mkTask id (Completed c)) ->
    requestQueue (loader w) = h :: rest ->
    exists w' d,
      step origin querySelectorAll_img w (Resumes p) = Some w' /\
      requestQueue (loader w') = rest /\
      tasks w' !! promise h = Some (mkTask (topicId h) (Delaying d))).
  { clear w t. intros w id c Hr Ht Hq.
    pose proof (reachable_bounded origin querySelectorAll_img w Hr) as Hb.
    destruct (finally_pre_bounded w p _
                (match c with Return imgs => Resolved imgs
                            | Throw e => Rejected e end) Hb Ht) as [Hb' Hsz].
    destruct Hb as (Hm & Ha & Hle).
    eexists _, _. cbn [step]. rewrite Ht. split; [reflexivity|].
    unfold finally_block, settle. cbn.
    match goal with |- context [_processQueue ?x] =>
      destruct (processQueue_cases x)
        as [[_ [Hnil|Hfull]]|(r & rest' & Hq' & _ & ->)]; cbn in * end.
    - rewrite Hq in Hnil. discriminate.
    - lia.
    - rewrite Hq in Hq'. injection Hq' as <- <-. cbn.
      split; [reflexivity|]. apply lookup_insert_eq. }
  assert (Hfetch : forall w id,
    tasks w !! p = Some (mkTask id Fetching) ->
    requestQueue (loader w) = h :: rest ->
    exists w1 c,
      step origin querySelectorAll_img w (FetchCompletes p (outcome p) now) = Some w1 /\
      tasks w1 !! p = Some (mkTask id (Completed c)) /\
      requestQueue (loader w1) = h :: rest).
  { clear w t. intros w id Ht Hq.
    destruct (_loadTopicImagesInternal origin querySelectorAll_img id
                (outcome p) now (loader w)) as [c L'] eqn:Hi.
    eexists _, c. cbn [step]. rewrite Ht, Hi. split; [reflexivity|].
    cbn. rewrite lookup_insert_eq. split; [reflexivity|].
    apply internal_body_of in Hi as (c0 & Hi & _).
    apply internal_try_effect in Hi as (Hq' & _). by rewrite Hq'. }
  intros Hr Ht Hq. destruct t as [id [d| |c]].
  - set (w0 := mkWorld (loader w) (<[p := mkTask id Fetching]> (tasks w))
                 (settled w) (next_promise w) (enqueued w)
                 (dispatched w) (fetched w ++ [id])).
    assert (Hs0 : step origin querySelectorAll_img w (TimerFires p) = Some w0)
      by (cbn [step]; by rewrite Ht).
    pose proof (reachable_step _ _ _ _ _ Hr Hs0) as Hr0.
    assert (Ht0 : tasks w0 !! p = Some (mkTask id Fetching))
      by apply lookup_insert_eq.
    destruct (Hfetch w0 id Ht0 Hq) as (w1 & c & Hs1 & Ht1 & Hq1).
    pose proof (reachable_step _ _ _ _ _ Hr0 Hs1) as Hr1.
    destruct (Hresume _ id c Hr1 Ht1 Hq1) as (w2 & d2 & Hs2 & Hq2 & Ht2).
    exists [TimerFires p; FetchCompletes p (outcome p) now; Resumes p], w2, d2.
    split; [cbn [run]; by rewrite Hs0, Hs1, Hs2|].
    split; [repeat constructor|]. auto.
  - destruct (Hfetch _ id Ht Hq) as (w1 & c & Hs1 & Ht1 & Hq1).
    pose proof (reachable_step _ _ _ _ _ Hr Hs1) as Hr1.
    destruct (Hresume _ id c Hr1 Ht1 Hq1) as (w2 & d2 & Hs2 & Hq2 & Ht2).
    exists [FetchCompletes p (outcome p) now; Resumes p], w2, d2.
    split; [cbn [run]; by rewrite Hs1, Hs2|].
    split; [repeat constructor|]. auto.
  - destruct (Hresume _ id c Hr Ht Hq) as (w2 & d2 & Hs2 & Hq2 & Ht2).
    exists [Resumes p], w2, d2.
    split; [cbn [run]; by rewrite Hs2|].
    split; [repeat constructor|]. auto.
Qed.

(** A request whose delay is running has its fetch sent when the timer
    fires. *)
Lemma delaying_reaches_fetching outcome now w (r : Request) d :
  tasks w !! promise r = Some (mkTask (topicId r) (Delaying d)) ->
  exists evs w',
    run origin querySelectorAll_img w evs = Some w' /\
    Forall (served_by outcome now) evs /\
    tasks w' !! promise r = Some (mkTask (topicId r) Fetching) /\
    fetched w' = (fetched w ++ [topicId r])%list.
Proof.
  intros Ht. eexists [TimerFires (promise r)], _.
  cbn [run step]. rewrite Ht. split; [reflexivity|].
  split; [repeat constructor|]. cbn. split; [apply lookup_insert_eq | reflexivity].
Qed.

(** A request that waits in the queue of a busy service gets its turn:
    the requests before it are served one after the other, then its own
    fetch is sent. *)
Lemma queued_reaches_fetching outcome now (r : Request) : forall q w,
  requestQueue (loader w) = q ->
  r ∈ q ->
  reachable origin querySelectorAll_img w ->
  exists evs w' f,
    run origin querySelectorAll_img w evs = Some w' /\
    Forall (served_by outcome now) evs /\
    tasks w' !! promise r = Some (mkTask (topicId r) Fetching) /\
    fetched w' = (f ++ [topicId r])%list.
Proof.
  induction q as [|h rest IH]; intros w Hq Hin Hr;
    [by apply elem_of_nil in Hin|].
  destruct (reachable_no_stall origin querySelectorAll_img w Hr) as [Hnil|Hne];
    [congruence|].
  apply map_choose in Hne as (p & t & Ht).
  destruct (finish_task_next outcome now w p t h rest Hr Ht Hq)
    as (evs1 & w1 & d & Hrun1 & Hev1 & Hq1 & Ht1).
  pose proof (run_reachable origin querySelectorAll_img evs1 w w1 Hr Hrun1) as Hr1.
  apply elem_of_cons in Hin as [->|Hin].
  - destruct (delaying_reaches_fetching outcome now w1 h d Ht1)
      as (evs2 & w2 & Hrun2 & Hev2 & Ht2 & Hf2).
    exists (evs1 ++ evs2)%list, w2, (fetched w1).
    split; [by rewrite (run_app origin querySelectorAll_img evs1 evs2 w w1 Hrun1)|].
    split; [by apply Forall_app|]. auto.
  - destruct (IH w1 Hq1 Hin Hr1) as (evs2 & w2 & f & Hrun2 & Hev2 & Ht2 & Hf2).
    exists (evs1 ++ evs2)%list, w2, f.
    split; [by rewrite (run_app origin querySelectorAll_img evs1 evs2 w w1 Hrun1)|].
    split; [by apply Forall_app|]. auto.
Qed.

(** After a call that misses, the new request either waits in the queue or
    has just been taken from it. *)
Lemma missed_call_is_pending id now1 now2 w :
  enqueued (loadTopicImages id now1 now2 w) <> enqueued w ->
  let w' := loadTopicImages id now1 now2 w in
  let r := mkRequest id (next_promise w) in
  r ∈ requestQueue (loader w') \/
  exists d, tasks w' !! promise r = Some (mkTask (topicId r) (Delaying d)).
Proof.
  cbv zeta. intros Hne.
  destruct (loadTopicImages_cases id now1 now2 w)
    as [(e & _ & _ & _ & Heq)|(cache' & _ & _ & _ & Heq)].
  - exfalso. apply Hne. by rewrite Heq.
  - rewrite Heq.
    match goal with |- context [_processQueue ?x] =>
      destruct (processQueue_cases x)
        as [[-> _]|(h & rest & Hq & _ & ->)]; cbn in * end.
    + left. apply elem_of_app. right. apply list_elem_of_here.
    + destruct (requestQueue (loader w)) as [|h0 q0]; cbn in Hq;
        injection Hq as <- <-.
      * right. eexists. cbn. apply lookup_insert_eq.
      * left. apply elem_of_app. right. apply list_elem_of_here.
Qed.

(** C6. [loadTopicImages] first removes every entry whose age has reached
    the expiry, and it resolves from the cache only with an entry younger
    than the expiry. For an expired entry it removes the entry and queues a
    request. That request gets its fetch: at once after the delay on an
    idle service, and on a busy service after the requests before it,
    however their fetches end. When a fetch is answered with a 2xx response
    whose JSON can be read, the value found there is stored for the topic
    with the time of the arrival, replacing whatever was stored, and the
    promise is resolved with it. *)
Theorem expired_entries_are_swept_and_refetched :
  (forall w id now1 now2 k e,
     imageCache (loader w) !! k = Some e ->
     (cacheExpiry (loader w) <= now1 - timestamp e)%Z ->
     imageCache (loader (loadTopicImages id now1 now2 w)) !! k = None) /\
  (forall w id now1 now2,
     settled (loadTopicImages id now1 now2 w) <> settled w ->
     exists e,
       imageCache (loader w) !! id = Some e /\
       (now1 - timestamp e < cacheExpiry (loader w))%Z /\
       (now2 - timestamp e < cacheExpiry (loader w))%Z /\
       settled (loadTopicImages id now1 now2 w)
       = (settled w ++ [(next_promise w, Resolved (images e))])%list) /\
  (forall w id e now1 now2,
     imageCache (loader w) !! id = Some e ->
     (cacheExpiry (loader w) <= now1 - timestamp e)%Z \/
     (cacheExpiry (loader w) <= now2 - timestamp e)%Z ->
     let w' := loadTopicImages id now1 now2 w in
     settled w' = settled w /\
     enqueued w' = (enqueued w ++ [mkRequest id (next_promise w)])%list /\
     imageCache (loader w') !! id = None /\
     fetched w' = fetched w /\
     (requestQueue (loader w) = [] ->
      (activeRequests (loader w) < maxConcurrent (loader w))%Z ->
      exists w2,
        step origin querySelectorAll_img w' (TimerFires (next_promise w)) = Some w2 /\
        fetched w2 = (fetched w ++ [id])%list) /\
     (reachable origin querySelectorAll_img w ->
      forall (outcome : nat -> FetchOutcome) (now : Z),
      exists evs w2 f,
        run origin querySelectorAll_img w' evs = Some w2 /\
        Forall (served_by outcome now) evs /\
        tasks w2 !! next_promise w = Some (mkTask id Fetching) /\
        fetched w2 = (f ++ [id])%list)) /\
  (forall w p id status t now,
     tasks w !! p = Some (mkTask id Fetching) ->
     response_ok status = true ->
     (no_content t ->
      exists w1 w2,
        step origin querySelectorAll_img w
          (FetchCompletes p (FetchResponse status (BodyTopic t)) now) = Some w1 /\
        imageCache (loader w1) !! id = Some (mkEntry [] now) /\
        step origin querySelectorAll_img w1 (Resumes p) = Some w2 /\
        settled w2 = (settled w ++ [(p, Resolved [])])%list /\
        imageCache (loader w2) !! id = Some (mkEntry [] now)) /\
     (forall ps firstPost rest c,
        post_stream t = Some ps ->
        posts ps = Some (Some firstPost :: rest) ->
        cooked firstPost = Some c ->
        truthy_string c = true ->
        let v := extractImagesFromHtml origin querySelectorAll_img c 3 in
        exists w1 w2,
          step origin querySelectorAll_img w
            (FetchCompletes p (FetchResponse status (BodyTopic t)) now) = Some w1 /\
          imageCache (loader w1) !! id = Some (mkEntry v now) /\
          step origin querySelectorAll_img w1 (Resumes p) = Some w2 /\
          settled w2 = (settled w ++ [(p, Resolved v)])%list /\
          imageCache (loader w2) !! id = Some (mkEntry v now))) /\
  (forall w p id out now imgs L',
     tasks w !! p = Some (mkTask id Fetching) ->
     internal_try origin querySelectorAll_img id out now (loader w) = (Return imgs, L') ->
     exists w1,
       step origin querySelectorAll_img w (FetchCompletes p out now) = Some w1 /\
       imageCache (loader w1) !! id = Some (mkEntry imgs now)).
Proof.
  destruct (expired_entries_on_call origin querySelectorAll_img)
    as (Hsweep & Hfresh & Hstale & Hstore).
  split; [exact Hsweep|]. split; [exact Hfresh|].
  split; [|split; [|exact Hstore]].
  - intros w id e now1 now2 He Hage. cbv zeta.
    destruct (Hstale w id e now1 now2 He Hage) as (Hs & Hen & Hc & Hidle).
    split; [exact Hs|]. split; [exact Hen|]. split; [exact Hc|].
    assert (Hf : fetched (loadTopicImages id now1 now2 w) = fetched w).
    { destruct (loadTopicImages_cases id now1 now2 w)
        as [(e' & _ & _ & _ & ->)|(cache' & _ & _ & _ & ->)]; [reflexivity|].
      match goal with |- context [_processQueue ?x] =>
        pose proof (processQueue_frame x) as (_ & Hf & _) end.
      exact Hf. }
    split; [exact Hf|]. split; [exact Hidle|].
    intros Hr outcome now.
    assert (Hr' : reachable origin querySelectorAll_img
                    (loadTopicImages id now1 now2 w))
      by (by apply (reachable_step _ _ w (Call id now1 now2))).
    assert (Hne : enqueued (loadTopicImages id now1 now2 w) <> enqueued w).
    { rewrite Hen. intros H.
      apply (f_equal length) in H. rewrite length_app in H. cbn in H. lia. }
    destruct (missed_call_is_pending id now1 now2 w Hne) as [Hq|[d Hd]].
    + destruct (queued_reaches_fetching outcome now
                  (mkRequest id (next_promise w)) _ _ eq_refl Hq Hr')
        as (evs & w2 & f & Hrun & Hev & Ht & Hf2).
      exists evs, w2, f. auto.
    + destruct (delaying_reaches_fetching outcome now _
                  (mkRequest id (next_promise w)) d Hd)
        as (evs & w2 & Hrun & Hev & Ht & Hf2).
      exists evs, w2, (fetched (loadTopicImages id now1 now2 w)). auto.
  - intros w p id status t now Ht Hok.
    destruct (internal_on_2xx id status t now (loader w) Hok) as [Hnone Hcooked].
    split.
    + intros Hno.
      apply (arrival_stores_entry w p id status t now [] _ Ht (Hnone Hno)).
      cbn. apply lookup_insert_eq.
    + intros ps firstPost rest c Hps Hposts Hc Htr. cbv zeta.
      apply (arrival_stores_entry w p id status t now _ _ Ht
               (Hcooked ps firstPost rest c Hps Hposts Hc Htr)).
      cbn. apply lookup_insert_eq.
Qed.

End Expiry.

(** * Further runs on concrete states *)

Lemma backed_off_world_run :
  run forum_origin marked_cover_parser new_World
    [Call (inl 7%Z) 0 0; TimerFires 0;
     FetchCompletes 0 (FetchResponse 429 BodyInvalid) 1000]
  = Some backed_off_world.
Proof. vm_compute. reflexivity. Qed.

Lemma loaded_ui_reachable :
  ui_reachable forum_origin marked_cover_parser loaded_ui.
Proof.
  apply (ui_run_reachable forum_origin marked_cover_parser loaded_ui_events new_Ui);
    [apply ui_reachable_new | vm_compute; reflexivity].
Qed.

Lemma call_only_evicts_witness :
  imageCache (loader (loadTopicImages (inl 8%Z) 2000 2000 cached_world))
    !! (inl 7%Z : TopicId)
  = Some (mkEntry ["https://forum.example/a.png"] 1000).
Proof.
  apply (proj2 (call_only_evicts (inl 8%Z) 2000 2000 cached_world (inl 7%Z))).
  - discriminate.
  - reflexivity.
  - cbn. lia.
Defined.

Lemma success_reads_first_post_witness :
  _loadTopicImagesInternal forum_origin marked_cover_parser (inl 7%Z)
    (FetchResponse 200 (BodyTopic (mkTopicJson (Some (mkPostStream (Some [])))))) 1000
    new_Loader
  = (Return [],
     set_imageCache (<[(inl 7%Z : TopicId) := mkEntry [] 1000]> (imageCache new_Loader))
       new_Loader).
Proof.
  apply (proj1 (success_reads_first_post forum_origin marked_cover_parser
                  (inl 7%Z) 200 (mkTopicJson (Some (mkPostStream (Some []))))
                  1000 new_Loader eq_refl)).
  exact I.
Defined.

Lemma delay_after_rate_limits_witness :
  requestDelay (loader backed_off_world)
  = Z.min (300 * 2 ^ Z.of_nat (length (filter (fun ev => is_rate_limit_event ev = true)
        [Call (inl 7%Z) 0 0; TimerFires 0;
         FetchCompletes 0 (FetchResponse 429 BodyInvalid) 1000]))) 5000 /\
  maxConcurrent (loader backed_off_world) = 1%Z /\
  cacheExpiry (loader backed_off_world) = 300000%Z.
Proof.
  apply (delay_after_rate_limits forum_origin marked_cover_parser).
  apply backed_off_world_run.
Defined.

Lemma same_topic_is_queued_twice_witness :
  let w2 := loadTopicImages (inl 7%Z) 1 1 (loadTopicImages (inl 7%Z) 0 0 new_World) in
  enqueued w2 = [mkRequest (inl 7%Z) 0; mkRequest (inl 7%Z) 1] /\
  settled w2 = [] /\
  next_promise w2 = 2%nat.
Proof.
  apply (same_topic_is_queued_twice (inl 7%Z) 0 0 1 1 new_World).
  reflexivity.
Defined.

Lemma resolved_values_are_well_formed_witness :
  (length ["https://forum.example/a.png"] <= 3)%nat /\
  Forall (fun url => passes_filter url = true) ["https://forum.example/a.png"].
Proof.
  apply (proj1 (resolved_values_are_well_formed forum_origin marked_cover_parser
                  cached_world cached_world_reachable) 0%nat).
  apply list_elem_of_here.
Defined.

Lemma every_promise_is_accounted_witness :
  NoDup (promise <$> requestQueue (loader cached_world)) /\
  NoDup (settled cached_world).*1 /\
  (forall p, p ∈ promise <$> requestQueue (loader cached_world) ->
             tasks cached_world !! p = None /\ p ∉ (settled cached_world).*1) /\
  (forall p, is_Some (tasks cached_world !! p) -> p ∉ (settled cached_world).*1) /\
  (forall p, (p < next_promise cached_world)%nat <->
             (p ∈ promise <$> requestQueue (loader cached_world) \/
              is_Some (tasks cached_world !! p) \/
              p ∈ (settled cached_world).*1)).
Proof.
  apply (every_promise_is_accounted forum_origin marked_cover_parser cached_world).
  apply cached_world_reachable.
Defined.

Lemma queue_always_drains_witness :
  (requestQueue (loader fetching_world) <> [] -> tasks fetching_world <> ∅) /\
  exists evs w',
    run forum_origin marked_cover_parser fetching_world evs = Some w' /\
    Forall (served_by (fun _ => FetchResponse 429 BodyInvalid) 1000) evs /\
    requestQueue (loader w') = [] /\
    tasks w' = ∅ /\
    (forall p, (p < next_promise fetching_world)%nat -> p ∈ (settled w').*1).
Proof.
  apply (queue_always_drains forum_origin marked_cover_parser fetching_world
           (fun _ => FetchResponse 429 BodyInvalid) 1000).
  apply fetching_world_reachable.
Defined.

Lemma component_loads_once_witness :
  isLoading (component loaded_ui) = false /\
  awaiting loaded_ui = None /\
  exists id p,
    calls loaded_ui = [(id, p)] /\
    settlement_of p (settled (service loaded_ui))
    = Some (Resolved (extractedImages (component loaded_ui))).
Proof.
  apply (proj1 (proj2 (proj2 (proj2
           (component_loads_once forum_origin marked_cover_parser loaded_ui
              loaded_ui_reachable))))).
  reflexivity.
Defined.

Lemma thumbnail_flag_and_urls_witness :
  hasThumbnail false topic_with_no_thumbnail new_Component = true /\
  imageUrls false topic_with_no_thumbnail new_Component = [].
Proof.
  apply (proj1 (proj2 (thumbnail_flag_and_urls false topic_with_no_thumbnail
                         new_Component))).
  split; reflexivity.
Defined.

Lemma fetches_follow_the_queue_witness :
  fetched fetching_world
  = topicId <$> take (length (fetched fetching_world)) (enqueued fetching_world) /\
  (length (fetched fetching_world) <= length (dispatched fetching_world)
   <= S (length (fetched fetching_world)))%nat /\
  ((forall p t d, tasks fetching_world !! p = Some t -> phase t <> Delaying d) ->
   fetched fetching_world = topicId <$> dispatched fetching_world).
Proof.
  apply (fetches_follow_the_queue forum_origin marked_cover_parser fetching_world).
  apply fetching_world_reachable.
Defined.

Lemma busy_cached_world_reachable :
  reachable forum_origin marked_cover_parser busy_cached_world.
Proof.
  apply (run_reachable forum_origin marked_cover_parser
           [Call (inl 8%Z) 2000 2000; TimerFires 1] cached_world);
    [apply cached_world_reachable | vm_compute; reflexivity].
Qed.

Lemma expired_entries_are_swept_and_refetched_witness :
  let w' := loadTopicImages (inl 7%Z) 301000 301000 busy_cached_world in
  settled w' = settled busy_cached_world /\
  enqueued w' = (enqueued busy_cached_world ++ [mkRequest (inl 7%Z) 2])%list /\
  imageCache (loader w') !! (inl 7%Z : TopicId) = None /\
  fetched w' = fetched busy_cached_world /\
  exists evs w2 f,
    run forum_origin marked_cover_parser w' evs = Some w2 /\
    Forall (served_by (fun _ => FetchResponse 200 marked_cover_body) 302000) evs /\
    tasks w2 !! 2%nat = Some (mkTask (inl 7%Z) Fetching) /\
    fetched w2 = (f ++ [inl 7%Z])%list.
Proof.
  assert (Hstale : (cacheExpiry (loader busy_cached_world)
                    <= 301000 - timestamp (mkEntry ["https://forum.example/a.png"] 1000))%Z)
    by (cbn; lia).
  destruct (proj1 (proj2 (proj2
              (expired_entries_are_swept_and_refetched forum_origin marked_cover_parser)))
              busy_cached_world (inl 7%Z)
              (mkEntry ["https://forum.example/a.png"] 1000) 301000 301000
              eq_refl (or_introl Hstale))
    as (Hs & He & Hc & Hf & _ & Hbusy).
  split; [exact Hs|]. split; [exact He|]. split; [exact Hc|]. split; [exact Hf|].
  exact (Hbusy busy_cached_world_reachable
           (fun _ => FetchResponse 200 marked_cover_body) 302000).
Defined.
